(** * pythemes: the theme-application engine, embedded and verified

    A shallow embedding of [pythemes/__main__.py]: the query matcher
    ([find]), the [App] methods ([validate], [find_current_theme],
    [determine_next_theme], [has_changes], [update], [diff]), the
    [Wallpaper] resolver, [SysOps.pid] and the orchestration loop
    ([process_theme], [handle_theme_updates]).

    Python [str] values are lists of characters; exceptions are an explicit
    result type; the file system, the process table and the commands the
    program spawns are an explicit world threaded through every call. *)

From Stdlib Require Import ZArith Ascii String List Bool Lia.
From stdpp Require Import base option list gmap strings.

Local Open Scope char_scope.
Local Open Scope Z_scope.

(** ** Python strings *)

(** A Python [str] is a list of characters. Characters are the code points
    below 256, one [ascii] each. *)
Abbreviation str := (list ascii).

(** A string literal of the source. *)
Definition py (s : string) : str := list_ascii_of_string s.

(** [s.startswith(p)] *)
Fixpoint startswith (p s : str) : bool :=
  match p, s with
  | [], _ => true
  | _ :: _, [] => false
  | a :: p', b :: s' => Ascii.eqb a b && startswith p' s'
  end.

(** [sub in s] *)
Fixpoint contains (sub s : str) : bool :=
  startswith sub s ||
  match s with
  | [] => false
  | _ :: s' => contains sub s'
  end.

(** The number of positions of [s] at which [sub] starts. *)
Fixpoint occurrences (sub s : str) : nat :=
  ((if startswith sub s then 1 else 0) +
   match s with
   | [] => 0
   | _ :: s' => occurrences sub s'
   end)%nat.

(** [s.replace(old, new)] for a non-empty [old]: every non-overlapping
    occurrence, scanning from the left. [skip] counts the characters of an
    occurrence that are still to be dropped. *)
Fixpoint replace_from (old new : str) (skip : nat) (s : str) : str :=
  match s with
  | [] => []
  | c :: s' =>
      match skip with
      | S k => replace_from old new k s'
      | O =>
          if startswith old s
          then new ++ replace_from old new (length old - 1) s'
          else c :: replace_from old new 0 s'
      end
  end.

(** [s.replace(old, new)]; with an empty [old] Python puts [new] before
    every character and at the end. *)
Definition str_replace (old new s : str) : str :=
  match old with
  | [] => new ++ flat_map (fun c => c :: new) s
  | _ :: _ => replace_from old new 0 s
  end.

(** [str.isspace] on one character, as the [re] module uses it for [\s] on
    [str] patterns: TAB, LF, VT, FF, CR, FS, GS, RS, US, SPACE, NEL, NBSP. *)
Definition isspace (c : ascii) : bool :=
  let n := N_of_ascii c in
  ((9 <=? n) && (n <=? 13) || (28 <=? n) && (n <=? 32) ||
   (n =? 133) || (n =? 160))%N.

Definition nonspace (c : ascii) : Prop := isspace c = false.

(** ** The [re] fragment that [find] uses *)

(** [re._special_chars_map]: the characters [re.escape] puts a backslash
    before. *)
Definition special_chars : str :=
  py "()[]{}?*+-|^$\.&~# " ++
  [ascii_of_nat 9; ascii_of_nat 10; ascii_of_nat 13; ascii_of_nat 11;
   ascii_of_nat 12].

Definition is_special (c : ascii) : bool := existsb (Ascii.eqb c) special_chars.

(** [re.escape(s)] *)
Definition re_escape (s : str) : str :=
  flat_map (fun c => if is_special c then ["\"; c] else [c]) s.

(** The placeholder of a query, its escaped form and the group that takes
    its place in the pattern. *)
Definition PLACEHOLDER : str := py "{theme}".
Definition ESCAPED_PLACEHOLDER : str := py "\{theme\}".
Definition GROUP : str := py "(\S+)".

(** A compiled pattern of the fragment: literal characters and capture
    groups [(\S+)]. *)
Inductive atom : Type :=
  | ALit (c : ascii)
  | AGroup.

Abbreviation regex := (list atom).

(** A character with a meaning of its own in a pattern. *)
Definition is_meta (c : ascii) : bool :=
  existsb (Ascii.eqb c) (py ".^$*+?{}[]\|()").

(** [re.compile(pattern)] on the fragment: the group [(\S+)], a backslash
    before a special character, or a character without a meaning of its
    own. [None] is a pattern outside the fragment. *)
Fixpoint re_compile (p : str) : option regex :=
  match p with
  | [] => Some []
  | c :: p' =>
      if Ascii.eqb c "(" then
        match p' with
        | c1 :: c2 :: c3 :: c4 :: p'' =>
            if Ascii.eqb c1 "\" && Ascii.eqb c2 "S" && Ascii.eqb c3 "+" &&
               Ascii.eqb c4 ")"
            then cons AGroup <$> re_compile p''
            else None
        | _ => None
        end
      else if Ascii.eqb c "\" then
        match p' with
        | c1 :: p'' =>
            if is_special c1 then cons (ALit c1) <$> re_compile p'' else None
        | [] => None
        end
      else if is_meta c then None
      else cons (ALit c) <$> re_compile p'
  end.

(** The length of the longest run of non-whitespace characters [s] starts
    with. *)
Fixpoint nonspace_run (s : str) : nat :=
  match s with
  | [] => O
  | c :: s' => if isspace c then O else S (nonspace_run s')
  end.

(** A group gives back: the longest run first, then one character less at a
    time, until the rest of the pattern, [rest], matches what follows. *)
Fixpoint give_back (rest : str -> option (list str)) (s : str) (n : nat)
  : option (list str) :=
  match n with
  | O => None
  | S k =>
      match rest (drop n s) with
      | Some gs => Some (take n s :: gs)
      | None => give_back rest s k
      end
  end.

(** Matching at the start of [s], as the backtracking engine does it: a
    group first takes the longest run of non-whitespace and gives back one
    character at a time until the rest of the pattern matches. The result
    is the list of captured groups. *)
Fixpoint match_here (r : regex) (s : str) : option (list str) :=
  match r with
  | [] => Some []
  | ALit c :: r' =>
      match s with
      | c' :: s' => if Ascii.eqb c c' then match_here r' s' else None
      | [] => None
      end
  | AGroup :: r' => give_back (match_here r') s (nonspace_run s)
  end.

(** [regex.search(line)]: the first position of the line at which the
    pattern matches. *)
Fixpoint re_search (r : regex) (s : str) : option (list str) :=
  match match_here r s with
  | Some gs => Some gs
  | None =>
      match s with
      | [] => None
      | _ :: s' => re_search r s'
      end
  end.

(** ** Exceptions *)

Inductive exn : Type :=
  | FileNotFoundError
  | NotADirectoryError
  | IsADirectoryError
  | InvalidFilePathError
  | ThemeModeError
  | ValueError
  | IndexError
  | ReError
  | CalledProcessError
  | OSError
  | SystemExit.

Inductive result (A : Type) : Type :=
  | Ok (a : A)
  | Raise (e : exn).
Arguments Ok {A} a.
Arguments Raise {A} e.

(** ** QueryMatcher *)

(** The loop of [find] over [enumerate(list_strings)], from index [idx]. *)
Fixpoint find_loop (r : regex) (idx : Z) (list_strings : list str)
  : result (Z * str) :=
  match list_strings with
  | [] => Ok (-1, [])
  | line :: rest =>
      match re_search r line with
      | Some gs =>
          match gs with
          | theme_value :: _ => Ok (idx, theme_value)
          | [] => Raise IndexError
          end
      | None => find_loop r (idx + 1) rest
      end
  end.

(** [find(query, list_strings)] *)
Definition find (query : str) (list_strings : list str) : result (Z * str) :=
  if (length list_strings =? 0)%nat then Ok (-1, [])
  else if (length query =? 0)%nat then Ok (-1, [])
  else if negb (contains PLACEHOLDER query) then Ok (-1, [])
  else
    let pattern := str_replace ESCAPED_PLACEHOLDER GROUP (re_escape query) in
    match re_compile pattern with
    | None => Raise ReError
    | Some r => find_loop r 0 list_strings
    end.

(** ** The world outside the program *)

Definition LF : ascii := ascii_of_nat 10.
Definition CR : ascii := ascii_of_nat 13.
Definition ESC : ascii := ascii_of_nat 27.

(** A path of the file system names a regular file with its bytes (one
    character per byte) or a directory with the names of its entries. *)
Inductive node : Type :=
  | File (content : str)
  | Dir (names : list str).

(** What the program does to the outside: a command it spawns and a signal
    it sends. Printing and logging are left out. *)
Inductive event : Type :=
  | EvRun (commands : str)
  | EvKill (pid : Z) (signal : Z).

Record World : Type := mkWorld {
  fs : gmap str node;
  (** [Path(f).expanduser()] as a string *)
  expanduser : str -> str;
  (** the environment variable [NO_COLOR] is set and not empty *)
  no_color : bool;
  (** the class attributes [SysOps.dry_run] and [SysOps.color] *)
  sys_dry_run : bool;
  sys_color : bool;
  (** the module-level list [PROGRAMS_RESTART] *)
  PROGRAMS_RESTART : list str;
  (** exit status and standard output of [pidof name] *)
  pidof : str -> Z * str;
  (** [os.kill(pid, _)] fails with [OSError] *)
  kill_fails : Z -> bool;
  (** the draw of [random.choice] among [n] files *)
  random_index : nat -> nat;
  (** the events so far, oldest first *)
  trace : list event
}.

Definition set_fs (f : gmap str node) (w : World) : World :=
  mkWorld f (expanduser w) (no_color w) (sys_dry_run w) (sys_color w)
          (PROGRAMS_RESTART w) (pidof w) (kill_fails w) (random_index w) (trace w).

Definition emit (e : event) (w : World) : World :=
  mkWorld (fs w) (expanduser w) (no_color w) (sys_dry_run w) (sys_color w)
          (PROGRAMS_RESTART w) (pidof w) (kill_fails w) (random_index w)
          (trace w ++ [e]).

(** ** Stateful code that may raise *)

(** A computation over a state [S]: it returns or raises, and the state it
    leaves behind is kept in both cases, as Python keeps the mutations made
    before an exception. *)
Definition M (S A : Type) : Type := S -> result A * S.

Definition ret {S A} (a : A) : M S A := fun s => (Ok a, s).
Definition raise {S A} (e : exn) : M S A := fun s => (Raise e, s).
Definition bind {S A B} (c : M S A) (k : A -> M S B) : M S B :=
  fun s =>
    match c s with
    | (Ok a, s') => k a s'
    | (Raise e, s') => (Raise e, s')
    end.
Definition gets {S A} (f : S -> A) : M S A := fun s => (Ok (f s), s).
Definition modify {S} (f : S -> S) : M S unit := fun s => (Ok tt, f s).

Declare Scope py_scope.
Delimit Scope py_scope with py_m.
Notation "x <- c ;; k" := (bind c (fun x => k))
  (at level 100, c at next level, right associativity) : py_scope.
Notation "c ;;; k" := (bind c (fun _ => k))
  (at level 100, right associativity) : py_scope.
Local Open Scope py_scope.

(** Running a computation on a part of the state: [get] reads the part and
    [set] writes it back. *)
Definition zoom {S T A} (get : S -> T) (set : T -> S -> S) (c : M T A) : M S A :=
  fun s => let '(r, t) := c (get s) in (r, set t s).

(** A loop [for x in xs: body(x)]. *)
Fixpoint for_each {S A} (xs : list A) (body : A -> M S unit) : M S unit :=
  match xs with
  | [] => ret tt
  | x :: rest => body x ;;; for_each rest body
  end.

(** ** Files *)

(** Reading in text mode translates the line endings CR LF and CR to LF. *)
Fixpoint universal_newlines (s : str) : str :=
  match s with
  | [] => []
  | c :: s' =>
      if Ascii.eqb c CR then
        LF :: match s' with
              | c2 :: s'' =>
                  if Ascii.eqb c2 LF then universal_newlines s''
                  else universal_newlines s'
              | [] => []
              end
      else c :: universal_newlines s'
  end.

(** The lines of a text, each with its LF. *)
Fixpoint keepends (s : str) : list str :=
  match s with
  | [] => []
  | c :: s' =>
      if Ascii.eqb c LF then [c] :: keepends s'
      else match keepends s' with
           | [] => [[c]]
           | l :: ls => (c :: l) :: ls
           end
  end.

Module Files.

(** [Files.readlines(f)]: [open] on a directory raises
    [IsADirectoryError]. *)
Definition readlines (f : str) : M World (list str) :=
  fun w =>
    match fs w !! f with
    | None => (Raise FileNotFoundError, w)
    | Some (Dir _) => (Raise IsADirectoryError, w)
    | Some (File bytes) => (Ok (keepends (universal_newlines bytes)), w)
    end.

(** [Files.savelines(f, lines)]: the file is truncated or created and
    the lines are written one after the other; on POSIX an LF is written
    as it is. *)
Definition savelines (f : str) (lines : list str) : M World unit :=
  fun w =>
    match fs w !! f with
    | Some (Dir _) => (Raise IsADirectoryError, w)
    | _ => (Ok tt, set_fs (<[f := File (concat lines)]> (fs w)) w)
    end.

(** [Files.get_path(f)] *)
Definition get_path (f : str) : M World str :=
  gets (fun w => expanduser w f).

End Files.

(** ** Python sequences *)

(** [a == b] on strings *)
Definition str_eqb (a b : str) : bool := bool_decide (a = b).

(** [xs[i]], with Python's negative indices; [None] is [IndexError]. *)
Definition getitem {A} (xs : list A) (i : Z) : option A :=
  let n := Z.of_nat (length xs) in
  if (0 <=? i) && (i <? n) then xs !! Z.to_nat i
  else if (- n <=? i) && (i <? 0) then xs !! Z.to_nat (n + i)
  else None.

(** [xs[i] = x]; [None] is [IndexError]. *)
Definition setitem {A} (xs : list A) (i : Z) (x : A) : option (list A) :=
  let n := Z.of_nat (length xs) in
  if (0 <=? i) && (i <? n) then Some (<[Z.to_nat i := x]> xs)
  else if (- n <=? i) && (i <? 0) then Some (<[Z.to_nat (n + i) := x]> xs)
  else None.

(** An index of a slice, brought into [0, len]. *)
Definition slice_index (len i : Z) : Z :=
  if i <? 0 then Z.max 0 (len + i) else Z.min len i.

(** [xs[a:b]] *)
Definition slice {A} (xs : list A) (a b : Z) : list A :=
  let n := Z.of_nat (length xs) in
  let a' := slice_index n a in
  let b' := slice_index n b in
  take (Z.to_nat (b' - a')) (drop (Z.to_nat a') xs).

(** [sep.join(xs)] *)
Fixpoint join (sep : str) (xs : list str) : str :=
  match xs with
  | [] => []
  | [x] => x
  | x :: rest => x ++ sep ++ join sep rest
  end.

(** [s.strip()] *)
Fixpoint lstrip (s : str) : str :=
  match s with
  | [] => []
  | c :: s' => if isspace c then lstrip s' else s
  end.

Definition strip (s : str) : str := reverse (lstrip (reverse (lstrip s))).

(** A line boundary of [str.splitlines]: LF, CR, VT, FF, FS, GS, RS, NEL. *)
Definition is_linebreak (c : ascii) : bool :=
  let n := N_of_ascii c in
  ((10 <=? n) && (n <=? 13) || (28 <=? n) && (n <=? 30) || (n =? 133))%N.

(** [s.splitlines()]; CR LF is one boundary. *)
Fixpoint splitlines (s : str) : list str :=
  match s with
  | [] => []
  | c :: s' =>
      if is_linebreak c then
        [] :: match s' with
              | c2 :: s'' =>
                  if Ascii.eqb c CR && Ascii.eqb c2 LF then splitlines s''
                  else splitlines s'
              | [] => []
              end
      else match splitlines s' with
           | [] => [[c]]
           | l :: ls => (c :: l) :: ls
           end
  end.

(** ** Colours *)

Definition BLUE : str := ESC :: py "[34m".
Definition CYAN : str := ESC :: py "[36m".
Definition GRAY : str := ESC :: py "[37m".
Definition GREEN : str := ESC :: py "[32m".
Definition MAGENTA : str := ESC :: py "[35m".
Definition RED : str := ESC :: py "[31m".
Definition YELLOW : str := ESC :: py "[33m".
Definition END : str := ESC :: py "[0m".
Definition BOLD : str := ESC :: py "[1m".
Definition ITALIC : str := ESC :: py "[3m".
Definition UNDERLINE : str := ESC :: py "[4m".

(** [colorize(text, *styles)] *)
Definition colorize (w : World) (text : str) (styles : list str) : str :=
  if no_color w then text
  else if (length styles =? 0)%nat || negb (sys_color w) then text
  else concat styles ++ text ++ END.

(** ** Differ *)

Section Differ.

(** [difflib.ndiff] on two lists of lines. *)
Variable ndiff : list str -> list str -> list str.

(** [Differ.process(old, new, with_indicators)] *)
Definition process (w : World) (old new : str) (with_indicators : bool) : str :=
  if str_eqb old new then old
  else
    join [LF]
      (flat_map
         (fun line =>
            if startswith (py "+ ") line then [colorize w line [GREEN]]
            else if startswith (py "- ") line then [colorize w line [RED]]
            else if with_indicators then
              if startswith (py "?") line then [strip line]
              else [colorize w (strip line) [ITALIC; GRAY]]
            else [])
         (ndiff (splitlines old) (splitlines new))).

(** [Differ.changes_with_indicators(old, new)] *)
Definition changes_with_indicators (w : World) (old new : str) : str :=
  process w old new true.

End Differ.

(** ** [repr] of a string *)

Definition QUOTE : ascii := ascii_of_nat 39.
Definition DQUOTE : ascii := ascii_of_nat 34.
Definition TAB : ascii := ascii_of_nat 9.

Definition hex_digit (n : N) : ascii :=
  nth (N.to_nat n) (py "0123456789abcdef") "0"%char.

Definition repr_char (quote c : ascii) : str :=
  let n := N_of_ascii c in
  if Ascii.eqb c "\" then py "\\"
  else if Ascii.eqb c quote then ["\"%char; c]
  else if Ascii.eqb c LF then py "\n"
  else if Ascii.eqb c CR then py "\r"
  else if Ascii.eqb c TAB then py "\t"
  else if ((n <? 32) || (127 <=? n) && (n <=? 160) || (n =? 173))%N
       then py "\x" ++ [hex_digit (n / 16); hex_digit (n mod 16)]
  else [c].

(** [repr(s)]: double quotes when [s] has a single quote and no double
    quote. *)
Definition repr (s : str) : str :=
  let quote :=
    if contains [QUOTE] s && negb (contains [DQUOTE] s) then DQUOTE else QUOTE in
  quote :: flat_map (repr_char quote) s ++ [quote].

(** ** BaseError and Cmd *)

Record BaseError : Type := mkBaseError {
  mesg : str;
  occurred : bool
}.

Definition no_error : BaseError := mkBaseError [] false.

(** [SysOps.run(commands)]: the command is spawned; its exit status is not
    used by any caller that is modelled. *)
Definition SysOps_run (commands : str) : M World unit :=
  modify (emit (EvRun commands)).

Module Cmd.

Record t : Type := mk {
  name : str;
  cmd : str
}.

(** [Cmd.run()] *)
Definition run (self : t) : M World unit :=
  if (length (cmd self) =? 0)%nat then ret tt
  else
    dry <- gets sys_dry_run ;;
    if (dry : bool) then ret tt
    else SysOps_run (cmd self).

End Cmd.

(** ** Application *)

Module App.

Record t : Type := mk {
  name : str;
  file : str;
  query : str;
  light : str;
  dark : str;
  cmd : option Cmd.t;
  dry_run : bool;
  original : str;
  status : str;
  _line_idx : Z;
  _next_theme : str;
  error : BaseError;
  _lines : list str
}.

(** The dataclass constructor with the defaults of the mutable fields. *)
Definition init (name file query light dark : str) (cmd : option Cmd.t)
                (dry_run : bool) : t :=
  mk name file query light dark cmd dry_run [] [] (-1) [] no_error [].

Definition set_original (x : str) (a : t) : t :=
  mk (name a) (file a) (query a) (light a) (dark a) (cmd a) (dry_run a)
     x (status a) (_line_idx a) (_next_theme a) (error a) (_lines a).
Definition set_status (x : str) (a : t) : t :=
  mk (name a) (file a) (query a) (light a) (dark a) (cmd a) (dry_run a)
     (original a) x (_line_idx a) (_next_theme a) (error a) (_lines a).
Definition set_line_idx (x : Z) (a : t) : t :=
  mk (name a) (file a) (query a) (light a) (dark a) (cmd a) (dry_run a)
     (original a) (status a) x (_next_theme a) (error a) (_lines a).
Definition set_next_theme (x : str) (a : t) : t :=
  mk (name a) (file a) (query a) (light a) (dark a) (cmd a) (dry_run a)
     (original a) (status a) (_line_idx a) x (error a) (_lines a).
Definition set_error (x : BaseError) (a : t) : t :=
  mk (name a) (file a) (query a) (light a) (dark a) (cmd a) (dry_run a)
     (original a) (status a) (_line_idx a) (_next_theme a) x (_lines a).
Definition set_lines (x : list str) (a : t) : t :=
  mk (name a) (file a) (query a) (light a) (dark a) (cmd a) (dry_run a)
     (original a) (status a) (_line_idx a) (_next_theme a) (error a) x.

(** A method runs on the object and the world. *)
Definition method (A : Type) : Type := M (t * World) A.

Definition self_ {A} (f : t -> A) : method A := gets (fun s => f (fst s)).
Definition world_ {A} (c : M World A) : method A :=
  zoom snd (fun w s => (fst s, w)) c.
Definition assign (f : t -> t) : method unit :=
  modify (fun s => (f (fst s), snd s)).

(** [self.error.mesg = m; self.error.occurred = True] *)
Definition fail_with (m : str) : method unit :=
  assign (set_error (mkBaseError m true)).

(** [self.status = colorize(text, *styles)] *)
Definition set_status_colorized (text : str) (styles : list str) : method unit :=
  w <- gets snd ;;
  assign (set_status (colorize w text styles)).

(** The property [path]. *)
Definition path : method str :=
  f <- self_ file ;; world_ (Files.get_path f).

(** [read_lines()] *)
Definition read_lines : method unit :=
  p <- path ;;
  ls <- world_ (Files.readlines p) ;;
  assign (set_lines ls).

(** [replace(index, string)] *)
Definition replace (index : Z) (string : str) : method unit :=
  ls <- self_ _lines ;;
  match setitem ls index string with
  | Some ls' => assign (set_lines ls')
  | None => raise IndexError
  end.

(** [get_mode(mode)] *)
Definition get_mode (self : t) (mode : str) : option str :=
  if str_eqb mode (py "light") then Some (light self)
  else if str_eqb mode (py "dark") then Some (dark self)
  else None.

(** [find_current_theme()] *)
Definition find_current_theme : method (Z * option str) :=
  read_lines ;;;
  ls <- self_ _lines ;;
  if (length ls =? 0)%nat then
    p <- path ;;
    fail_with (py "file " ++ repr p ++ py " is empty.") ;;;
    ret (-1, None)
  else
    q <- self_ query ;;
    match find q ls with
    | Raise e => raise e
    | Ok (idx, current_theme) =>
        if idx =? -1 then
          n <- self_ name ;;
          p <- path ;;
          fail_with (n ++ py ": query=" ++ repr q ++ py " not found in "
                       ++ repr p ++ py ".") ;;;
          ret (-1, None)
        else ret (idx, Some current_theme)
    end.

(** [determine_next_theme(current_theme, mode)] *)
Definition determine_next_theme (current_theme mode : str) : method str :=
  self <- self_ id ;;
  match get_mode self mode with
  | None => raise ThemeModeError
  | Some theme_mode =>
      if (length theme_mode =? 0)%nat then raise ThemeModeError
      else
        match getitem (_lines self) (_line_idx self) with
        | None => raise IndexError
        | Some original => ret (str_replace current_theme theme_mode original)
        end
  end.

(** [has_changes(mode)] *)
Definition has_changes (mode : str) : method bool :=
  r <- find_current_theme ;;
  match r with
  | (idx, Some current_theme) =>
      if idx =? -1 then ret false
      else
        assign (set_line_idx idx) ;;;
        ls <- self_ _lines ;;
        match getitem ls idx with
        | None => raise IndexError
        | Some line =>
            assign (set_original line) ;;;
            next_theme <- determine_next_theme current_theme mode ;;
            assign (set_line_idx idx) ;;;
            assign (set_next_theme next_theme) ;;;
            if str_eqb current_theme mode then ret false
            else
              orig <- self_ original ;;
              ret (negb (str_eqb orig next_theme))
        end
  | (_, None) => ret false
  end.

(** [update(mode)] *)
Definition update (mode : str) : method unit :=
  changed <- has_changes mode ;;
  if negb changed then set_status_colorized (py "no changes") [ITALIC; YELLOW]
  else
    next_theme <- self_ _next_theme ;;
    if (length next_theme =? 0)%nat then
      set_status_colorized (py "err not updated") [ITALIC; RED]
    else
      dry <- self_ dry_run ;;
      if (dry : bool) then set_status_colorized (py "dry run") [ITALIC; CYAN]
      else
        idx <- self_ _line_idx ;;
        replace idx next_theme ;;;
        p <- path ;;
        ls <- self_ _lines ;;
        world_ (Files.savelines p ls) ;;;
        set_status_colorized (py "applied") [ITALIC; BLUE].

(** [validate()] *)
Definition validate : method unit :=
  self <- self_ id ;;
  if (length (file self) =? 0)%nat then fail_with (py "no file specified.")
  else
    (if (length (dark self) =? 0)%nat
     then fail_with (py "no dark theme specified.") else ret tt) ;;;
    (if (length (light self) =? 0)%nat
     then fail_with (py "no light theme specified.") else ret tt) ;;;
    if (length (query self) =? 0)%nat then fail_with (py "no query specified.")
    else if negb (contains PLACEHOLDER (query self)) then
      fail_with (py "query does not contain placeholder '{theme}'.")
    else
      p <- path ;;
      node <- world_ (gets (fun w => fs w !! p)) ;;
      match node with
      | None => fail_with (py "filepath '" ++ p ++ py "' do not exists.")
      | Some _ => find_current_theme ;;; ret tt
      end.

Section Diff.

Variable ndiff : list str -> list str -> list str.

(** The two chunks [diff] compares: the lines around the matched line
    and the same text with the matched line replaced. *)
Definition diff_chunks : method (str * str) :=
  self <- self_ id ;;
  let idx_start := Z.max 0 (_line_idx self - 2) in
  let idx_end := Z.min (Z.of_nat (length (_lines self))) (_line_idx self + 2) in
  let original_chunk := concat (slice (_lines self) idx_start idx_end) in
  let new_chunk :=
    str_replace (original self) (_next_theme self) original_chunk in
  ret (original_chunk, new_chunk).

(** [diff(mode)] *)
Definition diff (mode : str) : method str :=
  if (length mode =? 0)%nat then ret []
  else
    err <- self_ error ;;
    if occurred err then
      set_status_colorized (py "has err") [ITALIC; RED] ;;; ret []
    else
      changed <- has_changes mode ;;
      if negb changed then
        set_status_colorized (py "no changes") [ITALIC; YELLOW] ;;; ret []
      else
        set_status_colorized (py "has changes") [ITALIC; CYAN] ;;;
        chunks <- diff_chunks ;;
        w <- gets snd ;;
        ret (changes_with_indicators ndiff w (fst chunks) (snd chunks)).

End Diff.

End App.

(** ** WallpaperManager *)

Module Wallpaper.

Record t : Type := mk {
  dark : str;
  light : str;
  random : str;
  cmd : str;
  dry_run : bool;
  error : BaseError
}.

(** [path.glob('*.*')] in a directory: the entries with a dot in their
    name, as paths. *)
Definition glob_star_dot_star (dir : str) (names : list str) : list str :=
  map (fun n => dir ++ py "/" ++ n) (filter (fun n => contains (py ".") n = true) names).

(** [randx()] *)
Definition randx (self : t) : M World str :=
  node <- gets (fun w => fs w !! random self) ;;
  match node with
  | None => raise FileNotFoundError
  | Some (File _) => raise NotADirectoryError
  | Some (Dir names) =>
      let files := glob_star_dot_star (random self) names in
      match files with
      | [] => raise FileNotFoundError
      | first :: _ =>
          i <- gets (fun w => random_index w (length files)) ;;
          ret (nth (i mod length files) files first)
      end
  end.

(** [get(mode, fallback)] *)
Definition get (self : t) (mode : str) (fallback : str) : str :=
  if str_eqb mode (py "light") then light self
  else if str_eqb mode (py "dark") then dark self
  else fallback.

(** [apply(path)] *)
Definition apply (self : t) (path : str) : M World unit :=
  if occurred (error self) then ret tt
  else
    node <- gets (fun w => fs w !! path) ;;
    match node with
    | Some (File _) =>
        if dry_run self then ret tt
        else SysOps_run (cmd self ++ py " " ++ path)
    | _ => raise InvalidFilePathError
    end.

(** [set(mode)]: Python evaluates the argument [self.randx()] before it
    calls [self.get]. *)
Definition set (self : t) (mode : str) : M World unit :=
  fallback <- randx self ;;
  apply self (get self mode fallback).

End Wallpaper.

(** ** Mode commands *)

Module ModeAction.

Record t : Type := mk {
  name : str;
  light : str;
  dark : str;
  cmd : str;
  dry_run : bool
}.

(** [get_mode(mode)] *)
Definition get_mode (self : t) (mode : str) : result str :=
  if str_eqb mode (py "light") then Ok (light self)
  else if str_eqb mode (py "dark") then Ok (dark self)
  else Raise ValueError.

(** [load(mode)] *)
Definition load (self : t) (mode : str) : M World unit :=
  match get_mode self mode with
  | Raise e => raise e
  | Ok value =>
      if dry_run self then ret tt
      else SysOps_run (cmd self ++ py " " ++ value)
  end.

End ModeAction.

Module Commander.

Record t : Type := mk { cmds : list Cmd.t }.

Definition empty : t := mk [].

(** [register(cmd)] *)
Definition register (self : t) (c : Cmd.t) : t := mk (cmds self ++ [c]).

(** [add(app)] *)
Definition add (self : t) (app : App.t) : t :=
  match App.cmd app with
  | Some c => register self c
  | None => self
  end.

(** [has_cmds()] *)
Definition has_cmds (self : t) : bool := (0 <? length (cmds self))%nat.

(** [run()] *)
Definition run (self : t) : M World unit :=
  for_each (cmds self) Cmd.run.

End Commander.

(** ** System operations *)

(** [s.split()]: the words between runs of whitespace. [cur] is the word
    being read, last character first. *)
Fixpoint split_from (cur : str) (s : str) : list str :=
  match s with
  | [] => match cur with [] => [] | _ => [reverse cur] end
  | c :: s' =>
      if isspace c then
        match cur with
        | [] => split_from [] s'
        | _ => reverse cur :: split_from [] s'
        end
      else split_from (c :: cur) s'
  end.

Definition split (s : str) : list str := split_from [] s.

Definition digit_value (c : ascii) : option Z :=
  let n := N_of_ascii c in
  if ((48 <=? n) && (n <=? 57))%N then Some (Z.of_N n - 48) else None.

(** The digits of an [int] literal; one underscore may stand between two
    digits. *)
Fixpoint int_digits (acc : Z) (after_digit : bool) (s : str) : option Z :=
  match s with
  | [] => if after_digit then Some acc else None
  | c :: s' =>
      match digit_value c with
      | Some d => int_digits (acc * 10 + d) true s'
      | None =>
          if Ascii.eqb c "_" && after_digit then int_digits acc false s'
          else None
      end
  end.

(** [int(s)] on a word without whitespace; [None] is [ValueError]. *)
Definition int (s : str) : option Z :=
  match s with
  | c :: s' =>
      if Ascii.eqb c "-" then Z.opp <$> int_digits 0 false s'
      else if Ascii.eqb c "+" then int_digits 0 false s'
      else int_digits 0 false s
  | [] => None
  end.

(** [[int(p) for p in pids]] *)
Fixpoint ints (words : list str) : result (list Z) :=
  match words with
  | [] => Ok []
  | p :: rest =>
      match int p with
      | None => Raise ValueError
      | Some n =>
          match ints rest with
          | Ok ns => Ok (n :: ns)
          | Raise e => Raise e
          end
      end
  end.

Definition SIGUSR1 : Z := 10.

Module SysOps.

(** [subprocess.check_output(argv)] for [pidof name]: the output, or
    [CalledProcessError] on an exit status other than 0. *)
Definition check_output_pidof (name : str) : M World str :=
  r <- gets (fun w => pidof w name) ;;
  if fst r =? 0 then ret (snd r) else raise CalledProcessError.

(** [SysOps.pid(name)] *)
Definition pid (name : str) : M World (list Z) :=
  bytes_pidof <- check_output_pidof name ;;
  let pids := split bytes_pidof in
  match ints pids with
  | Ok ns => ret ns
  | Raise e => raise e
  end.

(** [os.kill(pid, signal)] *)
Definition kill (p signal : Z) : M World unit :=
  fails <- gets (fun w => kill_fails w p) ;;
  if (fails : bool) then raise OSError
  else modify (emit (EvKill p signal)).

(** [SysOps.send_signal(pids, signal)] *)
Definition send_signal (pids : list Z) (signal : Z) : M World unit :=
  if (length pids =? 0)%nat then ret tt
  else for_each pids (fun p => kill p signal).

(** [SysOps.run(commands)] *)
Definition run : str -> M World unit := SysOps_run.

(** [SysOps.restart(s)] *)
Definition restart (s : str) : M World unit :=
  pids <- pid s ;;
  dry <- gets sys_dry_run ;;
  if (dry : bool) then ret tt
  else send_signal pids SIGUSR1.

End SysOps.

(** ** ThemeOrchestrator *)

Module Theme.

Record t : Type := mk {
  name : str;
  dry_run : bool;
  (** the dict [apps], in insertion order *)
  apps : list (str * App.t);
  cmds : list ModeAction.t;
  (** [None]: the attribute [wallpaper] was never set *)
  wallpaper : option Wallpaper.t;
  updates : Z
}.

Definition set_apps (x : list (str * App.t)) (th : t) : t :=
  mk (name th) (dry_run th) x (cmds th) (wallpaper th) (updates th).
Definition set_updates (x : Z) (th : t) : t :=
  mk (name th) (dry_run th) (apps th) (cmds th) (wallpaper th) x.

(** The property [has_updates]. *)
Definition has_updates (th : t) : bool := 0 <? updates th.

(** [errors()] *)
Definition errors (th : t) : Z :=
  Z.of_nat (length (filter (fun a => occurred (App.error (snd a)) = true) (apps th))).

End Theme.

(** A method call on an object held by the caller: the object after the
    call is returned with the result. *)
Definition call {A} (c : App.method A) (app : App.t) : M World (A * App.t) :=
  fun w =>
    match c (app, w) with
    | (Ok a, (app', w')) => (Ok (a, app'), w')
    | (Raise e, (_, w')) => (Raise e, w')
    end.

(** [process_app(app, mode)]; a missing mode ([None]) is the empty
    string, which every callee treats alike. *)
Definition process_app (mode : str) : App.method unit :=
  if (length mode =? 0)%nat then raise SystemExit
  else
    err <- App.self_ App.error ;;
    if occurred err then
      App.set_status_colorized (py "has err") [ITALIC; RED]
    else App.update mode.

(** The loop of [process_theme] over [theme.apps.values()]: the apps after
    the loop, the commander and the counter [theme.updates]. *)
Fixpoint process_apps (mode : str) (apps : list (str * App.t))
    (commander : Commander.t) (updates : Z)
  : M World (list (str * App.t) * Commander.t * Z) :=
  match apps with
  | [] => ret ([], commander, updates)
  | (key, app) :: rest =>
      r <- call (process_app mode) app ;;
      let app' := snd r in
      if occurred (App.error app') then
        r' <- process_apps mode rest commander updates ;;
        let '(rest', commander', updates') := r' in
        ret ((key, app') :: rest', commander', updates')
      else
        r' <- process_apps mode rest (Commander.add commander app') (updates + 1) ;;
        let '(rest', commander', updates') := r' in
        ret ((key, app') :: rest', commander', updates')
  end.

(** [handle_theme_updates(theme, commander, mode)] *)
Definition handle_theme_updates (theme : Theme.t) (commander : Commander.t)
    (mode : str) : M World unit :=
  match Theme.wallpaper theme with
  | Some wp => Wallpaper.set wp mode
  | None => ret tt
  end ;;;
  if negb (Theme.has_updates theme) then ret tt
  else
    for_each (Theme.cmds theme) (fun c => ModeAction.load c mode) ;;;
    (if Commander.has_cmds commander then Commander.run commander else ret tt) ;;;
    progs <- gets PROGRAMS_RESTART ;;
    for_each progs SysOps.restart.

(** [process_theme(theme, mode)]; the theme after the call is returned. *)
Definition process_theme (theme : Theme.t) (mode : str) : M World Theme.t :=
  r <- process_apps mode (Theme.apps theme) Commander.empty (Theme.updates theme) ;;
  let '(apps', commander, updates') := r in
  let theme' := Theme.set_updates updates' (Theme.set_apps apps' theme) in
  handle_theme_updates theme' commander mode ;;;
  ret theme'.

(** * Specification vocabulary and sample inputs *)

(** A computation keeps a relation between the state before and after. *)
Definition keeps {S A} (R : S -> S -> Prop) (c : M S A) : Prop :=
  forall s, R s (snd (c s)).

(** What a dry run keeps: the world, and the flag itself. *)
Definition same_world_and_flag (s s' : App.t * World) : Prop :=
  snd s' = snd s /\ App.dry_run (fst s') = App.dry_run (fst s).

(** A world with the given files, colours off, nothing running. *)
Definition sample_world (files : list (str * node)) : World :=
  mkWorld (list_to_map files) (fun f => f) false false false []
          (fun _ => (1, [])) (fun _ => false) (fun _ => 0%nat) [].

Definition bashrc : str := py "/home/u/.bashrc".

Definition bashrc_light : str :=
  py "export VAR=1" ++ [LF] ++ py "export BAT_THEME=gruvbox-light" ++ [LF]
  ++ py "export PAGER=less" ++ [LF].

Definition bat (dry_run : bool) : App.t :=
  App.init (py "bat") bashrc (py "export BAT_THEME={theme}")
           (py "gruvbox-light") (py "gruvbox-dark")
           (Some (Cmd.mk (py "bat") (py "bat cache --build"))) dry_run.

Definition wallpapers : Wallpaper.t :=
  Wallpaper.mk (py "/w/dark.png") (py "/w/light.png") (py "/w/random")
               (py "feh --bg-fill") false no_error.

Definition wallpaper_files : list (str * node) :=
  [(py "/w/dark.png", File (py "D")); (py "/w/light.png", File (py "L"))].

Definition five_lines : str :=
  py "l0" ++ [LF] ++ py "l1" ++ [LF] ++ py "export BAT_THEME=gruvbox-light" ++ [LF]
  ++ py "l3" ++ [LF] ++ py "l4" ++ [LF].

(** What the checks on [dark] and [light] leave in [error]: each failing
    check overwrites the message, so the later one, on [light], wins. *)
Definition after_mode_checks (app : App.t) : BaseError :=
  if (length (App.light app) =? 0)%nat
  then mkBaseError (py "no light theme specified.") true
  else if (length (App.dark app) =? 0)%nat
  then mkBaseError (py "no dark theme specified.") true
  else App.error app.

Definition no_modes : App.t :=
  App.init (py "bat") bashrc (py "export BAT_THEME={theme}") [] [] None false.

(** The line holds the query at offset [length a], with the token [t], one
    or more characters that are not whitespace, in the place of the
    placeholder: the text [pre] before it and the text [suf] after it. *)
Definition match_in (pre suf line a t : str) : Prop :=
  t <> [] /\ Forall nonspace t /\ exists b, line = a ++ pre ++ t ++ suf ++ b.

(** The line matches the literal form of the query somewhere. *)
Definition line_matches (pre suf line : str) : Prop :=
  exists a t, match_in pre suf line a t.

Definition empty_file_error (p : str) : BaseError :=
  mkBaseError (py "file " ++ repr p ++ py " is empty.") true.

Definition not_found_error (name query p : str) : BaseError :=
  mkBaseError (name ++ py ": query=" ++ repr query ++ py " not found in "
                 ++ repr p ++ py ".") true.

(** The object after a call of [has_changes] that got as far as the next
    line. *)
Definition with_match (ls : list str) (idx : Z) (line next : str) (app : App.t)
  : App.t :=
  App.set_next_theme next
    (App.set_line_idx idx
       (App.set_original line (App.set_line_idx idx (App.set_lines ls app)))).

Definition bashrc_crlf : str :=
  py "export VAR=1" ++ [CR; LF] ++ py "export BAT_THEME=gruvbox-light" ++ [CR; LF].

Definition no_lf (s : str) : Prop := Forall (fun c => c <> LF) s.

(** A line as [readlines] returns it: a text without LF, then LF; the last
    line of a file may have no LF and is then not empty. *)
Definition is_line (last_one : Prop) (l : str) : Prop :=
  exists body, no_lf body /\
    (l = body ++ [LF] \/ (last_one /\ body <> [] /\ l = body)).

Fixpoint lines_ok (ls : list str) : Prop :=
  match ls with
  | [] => True
  | l :: rest => is_line (rest = []) l /\ lines_ok rest
  end.

Definition gtk_settings : str := py "/home/u/.config/gtk-3.0/settings.ini".


(** The world [w'] comes after [w]: only files were written and events
    added. *)
Definition extends (w w' : World) : Prop :=
  expanduser w' = expanduser w /\ no_color w' = no_color w /\
  sys_dry_run w' = sys_dry_run w /\ sys_color w' = sys_color w /\
  PROGRAMS_RESTART w' = PROGRAMS_RESTART w /\ pidof w' = pidof w /\
  kill_fails w' = kill_fails w /\ random_index w' = random_index w /\
  exists evs, trace w' = trace w ++ evs.

(** The methods of an application leave the world as it is but for files. *)
Definition world_extends (s s' : App.t * World) : Prop := extends (snd s) (snd s').

(** An application that [process_theme] is done with and whose error flag
    is not set. *)
Definition without_error (a : str * App.t) : Prop :=
  occurred (App.error (snd a)) = false.

(** A desktop where [dunst] runs as the processes 123 and 456 and is to be
    restarted. *)
Definition desktop (files : list (str * node)) : World :=
  mkWorld (list_to_map files) (fun f => f) false false false [py "dunst"]
          (fun name => if str_eqb name (py "dunst")
                       then (0, py "123 456" ++ [LF]) else (1, []))
          (fun _ => false) (fun _ => 0%nat) [].

Definition gsettings : ModeAction.t :=
  ModeAction.mk (py "gsettings")
    (py "prefer-light") (py "prefer-dark")
    (py "gsettings set org.gnome.desktop.interface color-scheme") false.

Definition gruvbox : Theme.t :=
  Theme.mk (py "gruvbox") false [(py "bat", bat false)] [gsettings] None 0.

(** The theme after [process_theme(gruvbox, 'light')] on a file that is
    light already. *)
Definition gruvbox_light_run : result Theme.t * World :=
  process_theme gruvbox (py "light") (desktop [(bashrc, File bashrc_light)]).

Definition gruvbox_after : Theme.t :=
  match fst gruvbox_light_run with
  | Ok theme' => theme'
  | Raise _ => gruvbox
  end.

(** What reading keeps: the world, and the path of the target file. *)
Definition same_world_and_file (s s' : App.t * World) : Prop :=
  snd s' = snd s /\ App.file (fst s') = App.file (fst s).

(** The world [w'] has the files of [w], but for the path [target]; paths
    are expanded as before and no event was added. *)
Definition wrote_at_most (target : str -> Prop) (w w' : World) : Prop :=
  expanduser w' = expanduser w /\ trace w' = trace w /\
  forall p, ~ target p -> fs w' !! p = fs w !! p.

(** The world [w'] has the files of [w] and expands paths as [w] does. *)
Definition same_files (w w' : World) : Prop :=
  fs w' = fs w /\ expanduser w' = expanduser w.

(** A desktop as [desktop], in a dry run. *)
Definition dry_desktop (files : list (str * node)) : World :=
  mkWorld (list_to_map files) (fun f => f) false true false [py "dunst"]
          (fun name => if str_eqb name (py "dunst")
                       then (0, py "123 456" ++ [LF]) else (1, []))
          (fun _ => false) (fun _ => 0%nat) [].

Definition gruvbox_dry : Theme.t :=
  Theme.mk (py "gruvbox") true [(py "bat", bat true)]
    [ModeAction.mk (py "gsettings") (py "prefer-light") (py "prefer-dark")
       (py "gsettings set org.gnome.desktop.interface color-scheme") true]
    None 0.

(** A theme like [gruvbox] whose only application failed validation. *)
Definition gruvbox_broken : Theme.t :=
  Theme.mk (py "gruvbox") false
    [(py "bat", App.set_error (mkBaseError (py "no dark theme specified.") true)
                  (bat false))]
    [gsettings] None 0.

Definition gruvbox_broken_run : result Theme.t * World :=
  process_theme gruvbox_broken (py "dark") (desktop [(bashrc, File bashrc_light)]).

Definition gruvbox_broken_after : Theme.t :=
  match fst gruvbox_broken_run with
  | Ok theme' => theme'
  | Raise _ => gruvbox_broken
  end.

(** The pids a signal is delivered to: those before the first one for
    which [os.kill] fails. *)
Fixpoint delivered (fails : Z -> bool) (pids : list Z) : list Z :=
  match pids with
  | [] => []
  | p :: rest => if fails p then [] else p :: delivered fails rest
  end.

(** What [validate] asks of an application: the four settings are given,
    the query holds the placeholder, the target is a regular file and
    [find] locates the query in it. *)
Definition well_configured (app : App.t) (w : World) : Prop :=
  App.file app <> [] /\ App.dark app <> [] /\ App.light app <> [] /\
  App.query app <> [] /\ contains PLACEHOLDER (App.query app) = true /\
  exists bytes idx cur,
    fs w !! expanduser w (App.file app) = Some (File bytes) /\
    find (App.query app) (keepends (universal_newlines bytes)) = Ok (idx, cur) /\
    idx <> -1.

(** * Properties *)

(** ** The embedding at work *)

Example find_bat_theme :
  find (py "export BAT_THEME={theme}")
       [py "export VAR=1"; py "export PAGER=less"; py "export BAT_THEME=gruvbox-light"]
  = Ok (2, py "gruvbox-light").
Proof. reflexivity. Qed.

Example find_backtracks :
  find (py "a{theme}b") [py "x aXbYb c"] = Ok (0, py "XbY").
Proof. reflexivity. Qed.

Example splitlines_ex :
  splitlines (py "ab" ++ [LF] ++ py "c" ++ [CR; LF; LF] ++ py "d")
  = [py "ab"; py "c"; []; py "d"].
Proof. reflexivity. Qed.

Example keepends_ex :
  keepends (universal_newlines (py "ab" ++ [CR; LF] ++ py "c" ++ [CR] ++ py "d"))
  = [py "ab" ++ [LF]; py "c" ++ [LF]; py "d"].
Proof. reflexivity. Qed.

Example split_ex : split (py " 123  456 ") = [py "123"; py "456"].
Proof. reflexivity. Qed.

Example ints_ex : ints (split (py "123 456")) = Ok [123; 456].
Proof. reflexivity. Qed.

(** ** Laws of the computations *)

Lemma bind_ok {S A B} (c : M S A) (k : A -> M S B) s a s' :
  c s = (Ok a, s') -> bind c k s = k a s'.
Proof. intros H. unfold bind. now rewrite H. Qed.

Lemma bind_raise {S A B} (c : M S A) (k : A -> M S B) s e s' :
  c s = (Raise e, s') -> bind c k s = (Raise e, s').
Proof. intros H. unfold bind. now rewrite H. Qed.

Section Keeps.

Context {S : Type} (R : S -> S -> Prop).
Hypothesis R_refl : forall s, R s s.
Hypothesis R_trans : forall s1 s2 s3, R s1 s2 -> R s2 s3 -> R s1 s3.

Lemma keeps_ret {A} (a : A) : keeps R (ret a).
Proof. intros s. apply R_refl. Qed.

Lemma keeps_raise {A} e : keeps R (@raise S A e).
Proof. intros s. apply R_refl. Qed.

Lemma keeps_gets {A} (f : S -> A) : keeps R (gets f).
Proof. intros s. apply R_refl. Qed.

Lemma keeps_bind {A B} (c : M S A) (k : A -> M S B) :
  keeps R c -> (forall a, keeps R (k a)) -> keeps R (bind c k).
Proof.
  intros Hc Hk s. unfold bind. specialize (Hc s).
  destruct (c s) as [[a|e] s1]; simpl in *; [|exact Hc].
  eapply R_trans; [exact Hc|apply Hk].
Qed.

Lemma keeps_modify (f : S -> S) : (forall s, R s (f s)) -> keeps R (modify f).
Proof. intros H s. apply H. Qed.

End Keeps.

(** ** The matcher on degenerate inputs *)

(** C5. [find] returns the result "not found", index -1 with the empty
    string, and raises nothing, when the list of lines is empty, when the
    query is empty, or when the query has no placeholder. *)
Theorem find_degenerate_not_found (query : str) (list_strings : list str) :
  list_strings = [] \/ query = [] \/ contains PLACEHOLDER query = false ->
  find query list_strings = Ok (-1, []).
Proof.
  intros [-> | [-> | H]].
  - reflexivity.
  - unfold find. now destruct (length list_strings =? 0)%nat.
  - unfold find. rewrite H. simpl.
    destruct (length list_strings =? 0)%nat; [reflexivity|].
    now destruct (length query =? 0)%nat.
Qed.

Lemma find_degenerate_not_found_witness :
  find (py "THEME=theme") [py "THEME=gruvbox"] = Ok (-1, []).
Proof.
  apply find_degenerate_not_found. right; right. reflexivity.
Defined.

(** ** Dry run *)

Lemma same_world_and_flag_refl s : same_world_and_flag s s.
Proof. now split. Qed.

Lemma same_world_and_flag_trans s1 s2 s3 :
  same_world_and_flag s1 s2 -> same_world_and_flag s2 s3 ->
  same_world_and_flag s1 s3.
Proof. intros [H1 H2] [H3 H4]. split; congruence. Qed.

Lemma keeps_world_ {A} (c : M World A) :
  (forall w, snd (c w) = w) -> keeps same_world_and_flag (App.world_ c).
Proof.
  intros H [a w]. unfold App.world_, zoom. simpl.
  specialize (H w). destruct (c w) as [r w']. simpl in *. now split.
Qed.

Lemma keeps_assign (f : App.t -> App.t) :
  (forall a, App.dry_run (f a) = App.dry_run a) ->
  keeps same_world_and_flag (App.assign f).
Proof. intros H [a w]. split; [reflexivity|apply H]. Qed.

Lemma readlines_world f w : snd (Files.readlines f w) = w.
Proof.
  unfold Files.readlines. destruct (fs w !! f) as [[?|?]|]; reflexivity.
Qed.

Create HintDb keeps.

#[local] Hint Resolve same_world_and_flag_refl same_world_and_flag_trans : keeps.

Ltac keeps_step :=
  first
    [ apply (keeps_bind _ same_world_and_flag_trans); [|intros]
    | apply (keeps_ret _ same_world_and_flag_refl)
    | apply (keeps_raise _ same_world_and_flag_refl)
    | apply (keeps_gets _ same_world_and_flag_refl)
    | apply keeps_assign; intros; reflexivity
    | apply keeps_world_; intros; first [reflexivity | apply readlines_world]
    | match goal with
      | |- keeps _ (if ?b then _ else _) => destruct b
      | |- keeps _ (match ?x with _ => _ end) => destruct x
      end ].

Lemma keeps_path : keeps same_world_and_flag App.path.
Proof. unfold App.path, App.self_. repeat keeps_step. Qed.

Lemma keeps_fail_with m : keeps same_world_and_flag (App.fail_with m).
Proof. unfold App.fail_with. repeat keeps_step. Qed.

Lemma keeps_set_status text styles :
  keeps same_world_and_flag (App.set_status_colorized text styles).
Proof. unfold App.set_status_colorized. repeat keeps_step. Qed.

Lemma keeps_read_lines : keeps same_world_and_flag App.read_lines.
Proof.
  unfold App.read_lines. keeps_step; [apply keeps_path|]. repeat keeps_step.
Qed.

Lemma keeps_find_current_theme :
  keeps same_world_and_flag App.find_current_theme.
Proof.
  unfold App.find_current_theme, App.self_.
  keeps_step; [apply keeps_read_lines|].
  repeat first [apply keeps_path | apply keeps_fail_with | keeps_step].
Qed.

Lemma keeps_determine_next_theme c m :
  keeps same_world_and_flag (App.determine_next_theme c m).
Proof. unfold App.determine_next_theme, App.self_. repeat keeps_step. Qed.

Lemma keeps_has_changes mode :
  keeps same_world_and_flag (App.has_changes mode).
Proof.
  unfold App.has_changes, App.self_.
  keeps_step; [apply keeps_find_current_theme|].
  repeat first [apply keeps_determine_next_theme | keeps_step].
Qed.

(** C3. With dry-run enabled, [update(mode)] writes nothing: the world
    after the call, and with it the bytes of every file, is the world
    before it, whatever [has_changes] answered and whether or not the call
    raised. *)
Theorem update_dry_run_writes_nothing (app : App.t) (w : World) (mode : str) :
  App.dry_run app = true ->
  snd (snd (App.update mode (app, w))) = w /\
  fs (snd (snd (App.update mode (app, w)))) = fs w.
Proof.
  intros Hdry.
  assert (H : snd (snd (App.update mode (app, w))) = w); [|now rewrite H].
  unfold App.update, bind at 1.
  pose proof (keeps_has_changes mode (app, w)) as [Hw Hf].
  destruct (App.has_changes mode (app, w)) as [[changed|e] [app1 w1]];
    simpl in Hw, Hf; subst w1; [|reflexivity].
  rewrite Hdry in Hf.
  destruct changed; cbn [negb].
  - unfold bind at 1, App.self_, gets. cbn [fst snd].
    destruct (length (App._next_theme app1) =? 0)%nat.
    + apply (keeps_set_status (py "err not updated") [ITALIC; RED] (app1, w)).
    + unfold bind at 1. cbn [fst snd]. rewrite Hf.
      apply (keeps_set_status (py "dry run") [ITALIC; CYAN] (app1, w)).
  - apply (keeps_set_status (py "no changes") [ITALIC; YELLOW] (app1, w)).
Qed.

(** ** Sample inputs *)

Lemma update_dry_run_writes_nothing_witness :
  snd (snd (App.update (py "dark") (bat true, sample_world [(bashrc, File bashrc_light)])))
  = sample_world [(bashrc, File bashrc_light)] /\
  fs (snd (snd (App.update (py "dark") (bat true, sample_world [(bashrc, File bashrc_light)]))))
  = fs (sample_world [(bashrc, File bashrc_light)]).
Proof. apply update_dry_run_writes_nothing. reflexivity. Defined.

(** ** Process lookup *)

(** C9. The code departs from the claim: when [pidof] reports no process
    (an exit status other than 0), [SysOps.pid] does not return the empty
    list, it raises [CalledProcessError], which [check_output] raises and
    nothing catches. *)
Theorem pid_raises_when_no_process (name : str) (w : World) :
  fst (pidof w name) <> 0 ->
  SysOps.pid name w = (Raise CalledProcessError, w).
Proof.
  intros H. unfold SysOps.pid, SysOps.check_output_pidof, bind, gets.
  destruct (Z.eqb_spec (fst (pidof w name)) 0); [contradiction|reflexivity].
Qed.

Lemma pid_raises_when_no_process_witness :
  SysOps.pid (py "dunst") (sample_world []) =
  (Raise CalledProcessError, sample_world []).
Proof. apply pid_raises_when_no_process. discriminate. Defined.

(** ** Wallpaper *)

(** C8. The code departs from the claim: [set(mode)] calls [randx()] before
    it looks at the mode, so a random directory that is missing, or has no
    entry with a dot in its name, makes [set] raise [FileNotFoundError] for
    every mode, 'light' and 'dark' included, and no wallpaper is applied. *)
Theorem set_wallpaper_needs_random_directory
    (self : Wallpaper.t) (mode : str) (w : World) :
  fs w !! Wallpaper.random self = None \/
  (exists names, fs w !! Wallpaper.random self = Some (Dir names) /\
     Wallpaper.glob_star_dot_star (Wallpaper.random self) names = []) ->
  Wallpaper.set self mode w = (Raise FileNotFoundError, w).
Proof.
  intros [H | (names & H & Hglob)];
    unfold Wallpaper.set, Wallpaper.randx, bind, gets; rewrite H.
  - reflexivity.
  - now rewrite Hglob.
Qed.

Lemma set_wallpaper_needs_random_directory_witness :
  Wallpaper.set wallpapers (py "light") (sample_world wallpaper_files) =
  (Raise FileNotFoundError, sample_world wallpaper_files).
Proof.
  apply set_wallpaper_needs_random_directory. left. vm_compute. reflexivity.
Defined.

(** With a random directory that holds a picture, the same call applies the
    light wallpaper. *)
Example set_wallpaper_light_with_random_directory :
  let w := sample_world ((py "/w/random", Dir [py "r.png"]) :: wallpaper_files) in
  trace (snd (Wallpaper.set wallpapers (py "light") w)) =
  [EvRun (py "feh --bg-fill /w/light.png")].
Proof. vm_compute. reflexivity. Qed.

(** ** The context window of [diff] *)

(** C7. The code departs from the claim: with the match on line 2 of a file
    of five lines, the window [lines[idx_start:idx_end]] of [diff] holds the
    four lines 0 to 3; line 4, the second line after the match, is left
    out, because the end index [_line_idx + 2] of the slice is exclusive. *)
Theorem diff_window_has_one_line_after (ndiff : list str -> list str -> list str) :
  let w := sample_world [(bashrc, File five_lines)] in
  fst (App.diff ndiff (py "dark") (bat false, w)) =
  Ok (changes_with_indicators ndiff w
        (py "l0" ++ [LF] ++ py "l1" ++ [LF]
         ++ py "export BAT_THEME=gruvbox-light" ++ [LF] ++ py "l3" ++ [LF])
        (py "l0" ++ [LF] ++ py "l1" ++ [LF]
         ++ py "export BAT_THEME=gruvbox-dark" ++ [LF] ++ py "l3" ++ [LF])).
Proof. vm_compute. reflexivity. Qed.

(** ** Validation *)

Lemma length_eqb_0_nil {A} (l : list A) : (length l =? 0)%nat = true <-> l = [].
Proof. destruct l; simpl; split; intros H; congruence. Qed.

Lemma length_eqb_0_cons {A} (l : list A) : (length l =? 0)%nat = false <-> l <> [].
Proof. destruct l; simpl; split; intros H; congruence. Qed.

Lemma find_current_theme_found (app : App.t) (w : World) bytes idx cur :
  fs w !! expanduser w (App.file app) = Some (File bytes) ->
  find (App.query app) (keepends (universal_newlines bytes)) = Ok (idx, cur) ->
  idx <> -1 ->
  App.find_current_theme (app, w) =
  (Ok (idx, Some cur),
   (App.set_lines (keepends (universal_newlines bytes)) app, w)).
Proof.
  intros Hfs Hfind Hidx.
  unfold App.find_current_theme, App.read_lines, App.path, App.self_,
    App.world_, App.assign, Files.get_path, Files.readlines, zoom, bind,
    gets, modify, ret. cbn [fst snd]. rewrite Hfs. cbn [fst snd App._lines App.set_lines App.query].
  destruct (length (keepends (universal_newlines bytes)) =? 0)%nat eqn:Hlen.
  - apply length_eqb_0_nil in Hlen. rewrite Hlen in Hfind.
    unfold find in Hfind. simpl in Hfind. congruence.
  - cbn [fst snd App.query App.set_lines]. rewrite Hfind.
    destruct (Z.eqb_spec idx (-1)); [contradiction|reflexivity].
Qed.

(** [validate()], check by check. *)
Lemma validate_steps (app : App.t) (w : World) :
  App.validate (app, w) =
  if (length (App.file app) =? 0)%nat
  then App.fail_with (py "no file specified.") (app, w)
  else
    let s := (App.set_error (after_mode_checks app) app, w) in
    let p := expanduser w (App.file app) in
    if (length (App.query app) =? 0)%nat
    then App.fail_with (py "no query specified.") s
    else if negb (contains PLACEHOLDER (App.query app))
    then App.fail_with (py "query does not contain placeholder '{theme}'.") s
    else
      match fs w !! p with
      | None => App.fail_with (py "filepath '" ++ p ++ py "' do not exists.") s
      | Some _ => bind App.find_current_theme (fun _ => ret tt) s
      end.
Proof.
  unfold App.validate, App.self_. unfold bind at 1, gets at 1. cbn [fst snd id].
  destruct (length (App.file app) =? 0)%nat; [reflexivity|].
  cbv zeta.
  assert (Hrun : forall A (k : App.method A),
    bind (if (length (App.dark app) =? 0)%nat
          then App.fail_with (py "no dark theme specified.") else ret tt)
      (fun _ => bind (if (length (App.light app) =? 0)%nat
                      then App.fail_with (py "no light theme specified.")
                      else ret tt) (fun _ => k)) (app, w)
    = k (App.set_error (after_mode_checks app) app, w)).
  { intros A k. unfold after_mode_checks.
    destruct (length (App.dark app) =? 0)%nat, (length (App.light app) =? 0)%nat;
      try reflexivity.
    destruct app; reflexivity. }
  rewrite Hrun.
  destruct (length (App.query app) =? 0)%nat; [reflexivity|].
  destruct (negb (contains PLACEHOLDER (App.query app))); [reflexivity|].
  unfold App.path, App.self_, App.world_, Files.get_path, zoom, bind, gets.
  cbn [fst snd App.file App.set_error].
  destruct (fs w !! expanduser w (App.file app)); reflexivity.
Qed.

(** C6, as amended. [validate()] returns at once with its message for a
    missing file, an empty query, a query without placeholder or a path
    that does not exist; the checks on [dark] and [light] do not return and
    each overwrites the message, so the message recorded is that of the
    last failing check: a failing query or path check replaces a
    missing-dark or missing-light message, and when both [dark] and [light]
    are empty and the later checks pass, the message is the missing-light
    one. *)
Theorem validate_records_last_failure (app : App.t) (w : World) :
  let e := App.error (fst (snd (App.validate (app, w)))) in
  let p := expanduser w (App.file app) in
  (App.file app = [] -> e = mkBaseError (py "no file specified.") true) /\
  (App.file app <> [] -> App.query app = [] ->
     e = mkBaseError (py "no query specified.") true) /\
  (App.file app <> [] -> App.query app <> [] ->
   contains PLACEHOLDER (App.query app) = false ->
     e = mkBaseError (py "query does not contain placeholder '{theme}'.") true) /\
  (App.file app <> [] -> contains PLACEHOLDER (App.query app) = true ->
   fs w !! p = None ->
     e = mkBaseError (py "filepath '" ++ p ++ py "' do not exists.") true) /\
  (App.file app <> [] -> contains PLACEHOLDER (App.query app) = true ->
   (exists bytes idx cur,
      fs w !! p = Some (File bytes) /\
      find (App.query app) (keepends (universal_newlines bytes)) = Ok (idx, cur) /\
      idx <> -1) ->
     e = after_mode_checks app).
Proof.
  intros e p. subst e p. rewrite validate_steps.
  assert (Hq : contains PLACEHOLDER (App.query app) = true -> App.query app <> []).
  { intros H E. rewrite E in H. discriminate. }
  destruct (length (App.file app) =? 0)%nat eqn:Hfile.
  { apply length_eqb_0_nil in Hfile.
    repeat apply conj; intros; try contradiction. reflexivity. }
  apply length_eqb_0_cons in Hfile. cbv zeta.
  destruct (length (App.query app) =? 0)%nat eqn:Hquery.
  { apply length_eqb_0_nil in Hquery.
    repeat apply conj; intros; try contradiction; try reflexivity;
      exfalso; now apply Hq. }
  apply length_eqb_0_cons in Hquery.
  destruct (contains PLACEHOLDER (App.query app)) eqn:Hph; cbn [negb].
  2:{ repeat apply conj; intros; try contradiction; try discriminate.
      reflexivity. }
  repeat apply conj; intros; try contradiction; try discriminate.
  - rewrite H1. reflexivity.
  - destruct H1 as (bytes & idx & cur & Hfs & Hfind & Hidx).
    rewrite Hfs.
    erewrite bind_ok;
      [|exact (find_current_theme_found
                 (App.set_error (after_mode_checks app) app) w bytes idx cur
                 Hfs Hfind Hidx)].
    reflexivity.
Qed.

Lemma validate_records_last_failure_witness :
  App.error (fst (snd (App.validate
    (no_modes, sample_world [(bashrc, File bashrc_light)])))) =
  mkBaseError (py "no light theme specified.") true.
Proof.
  apply (validate_records_last_failure
           no_modes (sample_world [(bashrc, File bashrc_light)])).
  - discriminate.
  - reflexivity.
  - exists bashrc_light, 1, (py "gruvbox-light").
    split; [vm_compute; reflexivity|]. split; [vm_compute; reflexivity|lia].
Defined.

(** C6 as stated fails: with a file, a well-formed query that is found, and
    both [dark] and [light] empty, the first failing check is the one on
    [dark], and the message recorded is the one of the check on [light]. *)
Lemma validate_first_failure_counterexample :
  let app' := fst (snd (App.validate
    (no_modes, sample_world [(bashrc, File bashrc_light)]))) in
  App.file no_modes <> [] /\ App.dark no_modes = [] /\ App.light no_modes = [] /\
  mesg (App.error app') = py "no light theme specified." /\
  mesg (App.error app') <> py "no dark theme specified.".
Proof.
  cbv zeta. repeat split; try discriminate; vm_compute; reflexivity.
Qed.

(** ** Strings: prefixes and occurrences *)

Lemma startswith_app (p s : str) : startswith p (p ++ s) = true.
Proof.
  induction p as [|a p IH]; simpl; [reflexivity|].
  now rewrite Ascii.eqb_refl, IH.
Qed.

Lemma startswith_inv (p s : str) :
  startswith p s = true -> exists rest, s = p ++ rest.
Proof.
  revert s. induction p as [|a p IH]; intros s H; simpl in *.
  - now exists s.
  - destruct s as [|b s]; [discriminate|].
    apply andb_true_iff in H as [Hab H]. apply Ascii.eqb_eq in Hab. subst b.
    destruct (IH _ H) as [rest ->]. now exists rest.
Qed.

Lemma startswith_iff (p s : str) :
  startswith p s = true <-> exists rest, s = p ++ rest.
Proof.
  split; [apply startswith_inv|]. intros [rest ->]. apply startswith_app.
Qed.

Lemma contains_startswith (sub s : str) :
  startswith sub s = true -> contains sub s = true.
Proof. intros H. destruct s; simpl; now rewrite H. Qed.

Lemma contains_app (sub a b : str) : contains sub (a ++ sub ++ b) = true.
Proof.
  induction a as [|c a IH]; simpl.
  - apply contains_startswith, startswith_app.
  - rewrite IH. apply orb_true_r.
Qed.

Lemma occurrences_app_ge (sub a s : str) :
  (occurrences sub s <= occurrences sub (a ++ s))%nat.
Proof.
  induction a as [|c a IH]; simpl; [lia|].
  destruct (startswith sub (c :: a ++ s)); lia.
Qed.

(** When the occurrences of [sub] in [a ++ s] are those in [s], none starts
    inside [a]. *)
Lemma occurrences_app_same (sub : str) c a s :
  occurrences sub ((c :: a) ++ s) = occurrences sub s ->
  startswith sub ((c :: a) ++ s) = false /\
  occurrences sub (a ++ s) = occurrences sub s.
Proof.
  simpl. intros H. pose proof (occurrences_app_ge sub a s).
  destruct (startswith sub (c :: a ++ s)); [lia|]. split; [reflexivity|lia].
Qed.

Lemma occurrences_0_cons (sub : str) c s :
  occurrences sub (c :: s) = 0%nat ->
  startswith sub (c :: s) = false /\ occurrences sub s = 0%nat.
Proof.
  simpl. destruct (startswith sub (c :: s)); [lia|]. split; [reflexivity|lia].
Qed.

(** A query with one placeholder: nothing starts in the part before it,
    and the part after it has none. *)
Lemma one_placeholder (pre suf : str) :
  occurrences PLACEHOLDER (pre ++ PLACEHOLDER ++ suf) = 1%nat ->
  occurrences PLACEHOLDER (pre ++ PLACEHOLDER ++ suf) =
    occurrences PLACEHOLDER (PLACEHOLDER ++ suf) /\
  occurrences PLACEHOLDER suf = 0%nat.
Proof.
  intros H.
  pose proof (occurrences_app_ge PLACEHOLDER pre (PLACEHOLDER ++ suf)) as H1.
  pose proof (occurrences_app_ge PLACEHOLDER (py "theme}") suf) as H2.
  assert (H3 : occurrences PLACEHOLDER (PLACEHOLDER ++ suf) =
               S (occurrences PLACEHOLDER (py "theme}" ++ suf))).
  { unfold PLACEHOLDER, py. simpl. reflexivity. }
  lia.
Qed.

(** ** The pattern of a query *)

Lemma not_special_neq (c x : ascii) :
  is_special c = false -> In x special_chars -> Ascii.eqb c x = false.
Proof.
  unfold is_special. intros H Hin.
  destruct (Ascii.eqb c x) eqn:E; [|reflexivity].
  assert (existsb (Ascii.eqb c) special_chars = true); [|congruence].
  apply existsb_exists. now exists x.
Qed.

Lemma special_in (x : ascii) : is_special x = true -> In x special_chars.
Proof.
  unfold is_special. intros H. apply existsb_exists in H as (y & Hin & Hy).
  apply Ascii.eqb_eq in Hy. now subst.
Qed.

Lemma not_special_not_meta (c : ascii) : is_special c = false -> is_meta c = false.
Proof.
  intros H. unfold is_meta. destruct (existsb _ _) eqn:E; [|reflexivity].
  apply existsb_exists in E as (x & Hin & Hx).
  rewrite (not_special_neq c x H) in Hx; [discriminate|].
  apply special_in. simpl in Hin.
  repeat (destruct Hin as [<- | Hin]; [reflexivity|]). destruct Hin.
Qed.

Ltac special_char := apply special_in; reflexivity.

Lemma re_escape_app (a b : str) : re_escape (a ++ b) = re_escape a ++ re_escape b.
Proof. unfold re_escape. now rewrite flat_map_app. Qed.

Lemma re_escape_cons_special c s :
  is_special c = true -> re_escape (c :: s) = "\"%char :: c :: re_escape s.
Proof. intros H. unfold re_escape. simpl. now rewrite H. Qed.

Lemma re_escape_cons_plain c s :
  is_special c = false -> re_escape (c :: s) = c :: re_escape s.
Proof. intros H. unfold re_escape. simpl. now rewrite H. Qed.

(** An escaped string never starts with a special character other than
    the backslash. *)
Lemma escaped_starts_plain (x : ascii) (p q : str) :
  is_special x = true -> x <> "\"%char ->
  startswith (x :: p) (re_escape q) = false.
Proof.
  intros Hx Hne. destruct q as [|c q]; [reflexivity|].
  destruct (is_special c) eqn:Hc.
  - rewrite re_escape_cons_special by assumption. cbn [startswith].
    destruct (Ascii.eqb_spec x "\"%char); [contradiction|reflexivity].
  - rewrite re_escape_cons_plain by assumption. cbn [startswith].
    destruct (Ascii.eqb_spec x c); [subst; congruence|reflexivity].
Qed.

(** A character that is not special stands for itself in an escaped
    string. *)
Lemma escaped_plain_head (x : ascii) (p q : str) :
  is_special x = false ->
  startswith (x :: p) (re_escape q) = true ->
  exists q', q = x :: q' /\ startswith p (re_escape q') = true.
Proof.
  intros Hx H. destruct q as [|c q]; [discriminate|].
  destruct (is_special c) eqn:Hc.
  - rewrite re_escape_cons_special in H by assumption. cbn [startswith] in H.
    rewrite (not_special_neq x "\"%char Hx) in H by special_char. discriminate.
  - rewrite re_escape_cons_plain in H by assumption. cbn [startswith] in H.
    apply andb_true_iff in H as [E H]. apply Ascii.eqb_eq in E. subst c.
    now exists q.
Qed.

(** A backslash and a special character stand for that character. *)
Lemma escaped_special_head (x : ascii) (p q : str) :
  startswith ("\"%char :: x :: p) (re_escape q) = true ->
  exists q', q = x :: q' /\ startswith p (re_escape q') = true.
Proof.
  intros H. destruct q as [|c q]; [discriminate|].
  destruct (is_special c) eqn:Hc.
  - rewrite re_escape_cons_special in H by assumption. cbn [startswith] in H.
    apply andb_true_iff in H as [_ H].
    apply andb_true_iff in H as [E H]. apply Ascii.eqb_eq in E. subst c.
    now exists q.
  - rewrite re_escape_cons_plain in H by assumption. cbn [startswith] in H.
    apply andb_true_iff in H as [E _]. apply Ascii.eqb_eq in E. subst c.
    discriminate.
Qed.

(** The escaped placeholder in an escaped string is the placeholder in the
    string. *)
Lemma escaped_placeholder (q : str) :
  startswith ESCAPED_PLACEHOLDER (re_escape q) = true ->
  startswith PLACEHOLDER q = true.
Proof.
  intros H. unfold ESCAPED_PLACEHOLDER, py in H. cbn [list_ascii_of_string] in H.
  apply escaped_special_head in H as (q1 & -> & H).
  apply escaped_plain_head in H as (q2 & -> & H); [|reflexivity].
  apply escaped_plain_head in H as (q3 & -> & H); [|reflexivity].
  apply escaped_plain_head in H as (q4 & -> & H); [|reflexivity].
  apply escaped_plain_head in H as (q5 & -> & H); [|reflexivity].
  apply escaped_plain_head in H as (q6 & -> & H); [|reflexivity].
  apply escaped_special_head in H as (q7 & -> & H).
  reflexivity.
Qed.

Lemma replace_from_0_cons (old new : str) c s :
  startswith old (c :: s) = false ->
  replace_from old new 0 (c :: s) = c :: replace_from old new 0 s.
Proof. intros H. simpl replace_from. now rewrite H. Qed.

(** Where no placeholder starts, the replacement leaves the escaped text as
    it is. *)
Lemma replace_escaped_prefix (x rest : str) :
  occurrences PLACEHOLDER (x ++ rest) = occurrences PLACEHOLDER rest ->
  replace_from ESCAPED_PLACEHOLDER GROUP 0 (re_escape (x ++ rest)) =
  re_escape x ++ replace_from ESCAPED_PLACEHOLDER GROUP 0 (re_escape rest).
Proof.
  induction x as [|c x IH]; intros H; [reflexivity|].
  apply occurrences_app_same in H as [Hstart H]. specialize (IH H).
  change ((c :: x) ++ rest) with (c :: (x ++ rest)) in *.
  assert (Hno : startswith ESCAPED_PLACEHOLDER (re_escape (c :: x ++ rest)) = false).
  { destruct (startswith _ (re_escape _)) eqn:E; [|reflexivity].
    apply escaped_placeholder in E. congruence. }
  destruct (is_special c) eqn:Hc.
  - rewrite re_escape_cons_special in * by assumption.
    rewrite replace_from_0_cons by assumption.
    rewrite replace_from_0_cons.
    + rewrite IH. rewrite (re_escape_cons_special c x Hc). reflexivity.
    + assert (E : startswith ("{"%char :: py "theme\}") (re_escape (x ++ rest))
                  = false)
        by (apply escaped_starts_plain; [reflexivity|discriminate]).
      change (startswith ESCAPED_PLACEHOLDER (c :: re_escape (x ++ rest)))
        with (Ascii.eqb "\" c &&
              startswith ("{"%char :: py "theme\}") (re_escape (x ++ rest))).
      rewrite E. apply andb_false_r.
  - rewrite re_escape_cons_plain in * by assumption.
    rewrite replace_from_0_cons by assumption. rewrite IH.
    rewrite (re_escape_cons_plain c x Hc). reflexivity.
Qed.

Lemma replace_escaped_none (x : str) :
  occurrences PLACEHOLDER x = 0%nat ->
  replace_from ESCAPED_PLACEHOLDER GROUP 0 (re_escape x) = re_escape x.
Proof.
  intros H. pose proof (replace_escaped_prefix x []) as E.
  rewrite app_nil_r in E. rewrite E; [now rewrite app_nil_r|].
  rewrite H. reflexivity.
Qed.

(** The escaped text compiles to its characters. *)
Lemma compile_escaped (x p : str) :
  re_compile (re_escape x ++ p) = app (map ALit x) <$> re_compile p.
Proof.
  induction x as [|c x IH]; simpl map.
  - simpl. now destruct (re_compile p).
  - destruct (is_special c) eqn:Hc.
    + rewrite re_escape_cons_special by assumption.
      cbn [app re_compile]. rewrite Hc.
      change (Ascii.eqb "\" "(") with false. cbn iota.
      change (Ascii.eqb "\" "\") with true. cbn iota.
      rewrite IH. now destruct (re_compile p).
    + rewrite re_escape_cons_plain by assumption.
      cbn [app re_compile].
      rewrite (not_special_neq c "("%char Hc) by special_char.
      rewrite (not_special_neq c "\"%char Hc) by special_char.
      rewrite (not_special_not_meta c Hc).
      rewrite IH. now destruct (re_compile p).
Qed.

(** The pattern of a query with one placeholder: the characters before it,
    a group, the characters after it. *)
Lemma compile_query (pre suf : str) :
  occurrences PLACEHOLDER (pre ++ PLACEHOLDER ++ suf) = 1%nat ->
  re_compile (str_replace ESCAPED_PLACEHOLDER GROUP
                (re_escape (pre ++ PLACEHOLDER ++ suf))) =
  Some (map ALit pre ++ AGroup :: map ALit suf).
Proof.
  intros H. apply one_placeholder in H as [H1 H2].
  change (str_replace ESCAPED_PLACEHOLDER GROUP ?s)
    with (replace_from ESCAPED_PLACEHOLDER GROUP 0 s).
  rewrite replace_escaped_prefix by assumption.
  rewrite compile_escaped.
  assert (E : replace_from ESCAPED_PLACEHOLDER GROUP 0 (re_escape (PLACEHOLDER ++ suf))
              = GROUP ++ re_escape suf).
  { rewrite re_escape_app. rewrite <- (replace_escaped_none suf H2) at 2.
    reflexivity. }
  rewrite E.
  change (GROUP ++ re_escape suf)
    with ("("%char :: "\"%char :: "S"%char :: "+"%char :: ")"%char :: re_escape suf).
  cbn [re_compile]. change (Ascii.eqb "(" "(") with true. cbn iota.
  change (Ascii.eqb "\" "\" && Ascii.eqb "S" "S" && Ascii.eqb "+" "+"
          && Ascii.eqb ")" ")") with true. cbn iota.
  rewrite <- (app_nil_r (re_escape suf)), compile_escaped. simpl.
  rewrite app_nil_r. reflexivity.
Qed.

(** ** What the matcher finds *)

Lemma give_back_some rest s n gs :
  give_back rest s n = Some gs ->
  exists k gs', (1 <= k <= n)%nat /\ rest (drop k s) = Some gs' /\
    gs = take k s :: gs' /\
    forall k', (k < k' <= n)%nat -> rest (drop k' s) = None.
Proof.
  induction n as [|n IH]; intros H; [discriminate|].
  cbn [give_back] in H. destruct (rest (drop (S n) s)) as [gs'|] eqn:E.
  - injection H as <-. exists (S n), gs'. repeat split; try lia; try assumption.
  - destruct (IH H) as (k & gs' & Hk & Hr & -> & Hmax).
    exists k, gs'. repeat split; try lia; try assumption.
    intros k' Hk'. destruct (decide (k' = S n)) as [->|]; [assumption|].
    apply Hmax. lia.
Qed.

Lemma give_back_none rest s n :
  give_back rest s n = None ->
  forall k, (1 <= k <= n)%nat -> rest (drop k s) = None.
Proof.
  induction n as [|n IH]; intros H k Hk; [lia|].
  cbn [give_back] in H. destruct (rest (drop (S n) s)) eqn:E; [discriminate|].
  destruct (decide (k = S n)) as [->|]; [assumption|]. apply IH; [assumption|lia].
Qed.

Lemma match_here_lits (l : str) (r : regex) (s : str) :
  match_here (map ALit l ++ r) s =
  if startswith l s then match_here r (drop (length l) s) else None.
Proof.
  revert s. induction l as [|c l IH]; intros s; [reflexivity|].
  cbn [map app match_here startswith]. destruct s as [|c' s]; [reflexivity|].
  destruct (Ascii.eqb c c'); [|reflexivity]. cbn [andb length drop]. apply IH.
Qed.

Lemma match_here_only_lits (l s : str) :
  match_here (map ALit l) s = if startswith l s then Some [] else None.
Proof. rewrite <- (app_nil_r (map ALit l)), match_here_lits. reflexivity. Qed.

Lemma nonspace_run_take (s : str) (k : nat) :
  (k <= nonspace_run s)%nat -> Forall nonspace (take k s) /\ (k <= length s)%nat.
Proof.
  revert k. induction s as [|c s IH]; intros k Hk; simpl in *.
  - assert (k = 0%nat) by lia. subst. split; [constructor|lia].
  - destruct k as [|k]; [split; [constructor|lia]|].
    destruct (isspace c) eqn:Hc; [lia|].
    destruct (IH k) as [H1 H2]; [lia|]. split; [|lia].
    simpl. constructor; assumption.
Qed.

Lemma nonspace_run_app (t rest : str) :
  Forall nonspace t -> (length t <= nonspace_run (t ++ rest))%nat.
Proof.
  induction 1 as [|c t Hc _ IH]; simpl; [lia|].
  unfold nonspace in Hc. rewrite Hc. lia.
Qed.

(** At the start of [s], the pattern of a query with one placeholder takes
    the longest token that the rest of the query follows. *)
Lemma match_here_query_some (pre suf s : str) gs :
  match_here (map ALit pre ++ AGroup :: map ALit suf) s = Some gs ->
  exists t, gs = [t] /\ match_in pre suf s [] t /\
    forall t', match_in pre suf s [] t' -> (length t' <= length t)%nat.
Proof.
  rewrite match_here_lits. destruct (startswith pre s) eqn:Hpre; [|discriminate].
  apply startswith_inv in Hpre as [s1 ->].
  rewrite drop_app_length. cbn [match_here]. intros H.
  apply give_back_some in H as (k & gs' & Hk & Hr & -> & Hmax).
  rewrite match_here_only_lits in Hr.
  destruct (startswith suf (drop k s1)) eqn:Hsuf; [|discriminate].
  injection Hr as <-. apply startswith_inv in Hsuf as [b Hb].
  destruct (nonspace_run_take s1 k) as [Hns Hlen]; [lia|].
  exists (take k s1). split; [reflexivity|]. split.
  - repeat split.
    + intros E. apply (f_equal length) in E. rewrite length_take in E.
      simpl in E. lia.
    + assumption.
    + exists b. simpl. rewrite <- Hb, take_drop. reflexivity.
  - intros t' (Hne & Hns' & b' & Hb'). simpl in Hb'.
    apply app_inv_head in Hb'. subst s1. rewrite length_take.
    destruct (le_lt_dec (length t') k) as [Hle|Hgt].
    { apply Nat.min_glb; [assumption|rewrite length_app; lia]. }
    exfalso. specialize (Hmax (length t')).
    rewrite match_here_only_lits, drop_app_length, startswith_app in Hmax.
    pose proof (nonspace_run_app t' (suf ++ b') Hns').
    discriminate Hmax. lia.
Qed.

Lemma match_here_query_none (pre suf s : str) :
  match_here (map ALit pre ++ AGroup :: map ALit suf) s = None ->
  forall t, ~ match_in pre suf s [] t.
Proof.
  rewrite match_here_lits. intros H t (Hne & Hns & b & Hb). simpl in Hb. subst s.
  rewrite startswith_app, drop_app_length in H. cbn [match_here] in H.
  pose proof (give_back_none _ _ _ H (length t)) as Hk.
  rewrite match_here_only_lits, drop_app_length, startswith_app in Hk.
  pose proof (nonspace_run_app t (suf ++ b) Hns).
  destruct t; [contradiction|]. simpl in *. discriminate Hk. lia.
Qed.

Lemma re_search_some (r : regex) (s : str) gs :
  re_search r s = Some gs ->
  exists a s', s = a ++ s' /\ match_here r s' = Some gs /\
    forall a' s'', s = a' ++ s'' -> (length a' < length a)%nat ->
      match_here r s'' = None.
Proof.
  induction s as [|c s IH]; cbn [re_search]; intros H.
  - destruct (match_here r []) eqn:E; [|discriminate]. injection H as ->.
    exists [], []. repeat split; try assumption. simpl. intros; lia.
  - destruct (match_here r (c :: s)) eqn:E.
    + injection H as ->. exists [], (c :: s). repeat split; try assumption.
      simpl. intros; lia.
    + destruct (IH H) as (a & s' & -> & Hm & Hleft).
      exists (c :: a), s'. repeat split; try assumption.
      intros a' s'' Heq Hlen. destruct a' as [|c' a'].
      * simpl in Heq. subst s''. assumption.
      * simpl in Heq. injection Heq as -> Heq. apply (Hleft a' s'' Heq).
        simpl in Hlen. lia.
Qed.

Lemma re_search_none (r : regex) (s : str) :
  re_search r s = None -> forall a s', s = a ++ s' -> match_here r s' = None.
Proof.
  induction s as [|c s IH]; cbn [re_search]; intros H a s' Heq.
  - destruct (match_here r []) eqn:E; [discriminate|].
    destruct a; [|discriminate]. simpl in Heq. now subst.
  - destruct (match_here r (c :: s)) eqn:E; [discriminate|].
    destruct a as [|c' a]; simpl in Heq.
    + now subst.
    + injection Heq as -> Heq. now apply (IH H a).
Qed.

(** The loop of [find] stops at the first line the pattern is found in. *)
Lemma find_loop_total (r : regex) (k : Z) (ls : list str) :
  (forall line, In line ls -> re_search r line <> Some []) ->
  (find_loop r k ls = Ok (-1, []) /\
   forall line, In line ls -> re_search r line = None) \/
  (exists i line t gs,
     find_loop r k ls = Ok (k + Z.of_nat i, t) /\ ls !! i = Some line /\
     re_search r line = Some (t :: gs) /\
     forall j line', (j < i)%nat -> ls !! j = Some line' ->
       re_search r line' = None).
Proof.
  revert k. induction ls as [|l ls IH]; intros k Hgs.
  - left. split; [reflexivity|]. intros line [].
  - cbn [find_loop]. destruct (re_search r l) as [[|t gs]|] eqn:E.
    + exfalso. apply (Hgs l); [now left|assumption].
    + right. exists 0%nat, l, t, gs. rewrite Z.add_0_r.
      repeat split; try assumption; try reflexivity. intros; lia.
    + destruct (IH (k + 1)) as [[H1 H2] | (i & line & t & gs & H1 & H2 & H3 & H4)].
      * intros line Hin. apply Hgs. now right.
      * left. split; [assumption|]. intros line [<- | Hin]; auto.
      * right. exists (S i), line, t, gs.
        replace (k + Z.of_nat (S i)) with (k + 1 + Z.of_nat i) by lia.
        repeat split; try assumption.
        intros [|j] line' Hj Hl; simpl in Hl.
        -- now injection Hl as <-.
        -- apply (H4 j); [lia|assumption].
Qed.

Section OnePlaceholder.

Variables pre suf : str.
Local Abbreviation r := (map ALit pre ++ AGroup :: map ALit suf).

Lemma search_none_no_match (line : str) :
  re_search r line = None -> ~ line_matches pre suf line.
Proof.
  intros H (a & t & Hne & Hns & b & Hb).
  pose proof (re_search_none r line H a (pre ++ t ++ suf ++ b) Hb) as Hm.
  apply (match_here_query_none pre suf _ Hm t).
  repeat split; try assumption. now exists b.
Qed.

Lemma search_some_match (line : str) gs :
  re_search r line = Some gs ->
  exists a t, gs = [t] /\ match_in pre suf line a t /\
    forall a' t', match_in pre suf line a' t' ->
      (length a <= length a')%nat /\
      (length a' = length a -> (length t' <= length t)%nat).
Proof.
  intros H. apply re_search_some in H as (a & s' & -> & Hm & Hleft).
  apply match_here_query_some in Hm as (t & -> & (Hne & Hns & b & Hb) & Hmax).
  simpl in Hb. exists a, t. split; [reflexivity|]. split.
  { repeat split; try assumption. exists b. now rewrite Hb. }
  intros a' t' (Hne' & Hns' & b' & Hb').
  assert (Hlen : (length a <= length a')%nat).
  { destruct (le_lt_dec (length a) (length a')) as [|Hlt]; [assumption|].
    exfalso. pose proof (Hleft a' _ Hb' Hlt) as Hnone.
    apply (match_here_query_none pre suf _ Hnone t').
    repeat split; try assumption. now exists b'. }
  split; [assumption|]. intros Heq. apply Hmax.
  assert (a' = a) as ->.
  { apply (f_equal (take (length a))) in Hb'.
    rewrite take_app_length in Hb'. rewrite <- Heq in Hb'.
    rewrite take_app_length in Hb'. congruence. }
  apply app_inv_head in Hb'.
  repeat split; try assumption. exists b'. simpl. congruence.
Qed.

End OnePlaceholder.

(** C1. For a query with exactly one placeholder, the text [pre] before it
    and the text [suf] after it taken literally, and lines of which one
    matches the query, [find] returns the index of the first line that
    matches and the token captured there: one or more characters that are
    not whitespace, standing between [pre] and [suf] at the leftmost place
    of that line where the query matches, and the longest such token
    there. *)
Theorem find_first_match (pre suf : str) (list_strings : list str) :
  occurrences PLACEHOLDER (pre ++ PLACEHOLDER ++ suf) = 1%nat ->
  (exists line, In line list_strings /\ line_matches pre suf line) ->
  exists i line a t,
    find (pre ++ PLACEHOLDER ++ suf) list_strings = Ok (Z.of_nat i, t) /\
    list_strings !! i = Some line /\
    match_in pre suf line a t /\
    (forall j line', (j < i)%nat -> list_strings !! j = Some line' ->
       ~ line_matches pre suf line') /\
    (forall a' t', match_in pre suf line a' t' ->
       (length a <= length a')%nat /\
       (length a' = length a -> (length t' <= length t)%nat)).
Proof.
  intros Hone (line0 & Hin0 & Hmatch0).
  unfold find.
  destruct list_strings as [|l0 ls] eqn:Els; [destruct Hin0|]. rewrite <- Els in *.
  assert ((length list_strings =? 0)%nat = false) as -> by now subst.
  assert ((length (pre ++ PLACEHOLDER ++ suf) =? 0)%nat = false) as ->.
  { rewrite !length_app. change (length PLACEHOLDER) with 7%nat.
    apply Nat.eqb_neq. lia. }
  rewrite contains_app. cbn [negb]. cbv zeta. rewrite compile_query by assumption.
  destruct (find_loop_total (map ALit pre ++ AGroup :: map ALit suf) 0 list_strings)
    as [[_ Hnone] | (i & line & t & gs & Hfind & Hline & Hsearch & Hfirst)].
  - intros line Hin Hs. apply search_some_match in Hs as (a & t & E & _). discriminate.
  - exfalso. apply (search_none_no_match pre suf line0); auto.
  - apply search_some_match in Hsearch as (a & t0 & E & Hm & Hleft).
    injection E as -> ->.
    exists i, line, a, t0. rewrite Z.add_0_l in Hfind.
    split; [assumption|]. split; [assumption|]. split; [assumption|].
    split; [|assumption].
    intros j line' Hj Hl. apply search_none_no_match. now apply (Hfirst j).
Qed.

Lemma find_first_match_witness :
  exists i line a t,
    find (py "export BAT_THEME=" ++ PLACEHOLDER ++ [])
         [py "export VAR=1"; py "export BAT_THEME=gruvbox-light"]
      = Ok (Z.of_nat i, t) /\
    [py "export VAR=1"; py "export BAT_THEME=gruvbox-light"] !! i = Some line /\
    match_in (py "export BAT_THEME=") [] line a t /\
    (forall j line', (j < i)%nat ->
       [py "export VAR=1"; py "export BAT_THEME=gruvbox-light"] !! j = Some line' ->
       ~ line_matches (py "export BAT_THEME=") [] line') /\
    (forall a' t', match_in (py "export BAT_THEME=") [] line a' t' ->
       (length a <= length a')%nat /\
       (length a' = length a -> (length t' <= length t)%nat)).
Proof.
  apply find_first_match.
  - reflexivity.
  - exists (py "export BAT_THEME=gruvbox-light"). split; [right; left; reflexivity|].
    exists [], (py "gruvbox-light"). split; [discriminate|]. split.
    + repeat constructor.
    + exists []. reflexivity.
Defined.

(** ** [has_changes] and [update], step by step *)

(** [find_current_theme()] in terms of the file it reads. *)
Lemma find_current_theme_steps (app : App.t) (w : World) :
  App.find_current_theme (app, w) =
  let p := expanduser w (App.file app) in
  match fs w !! p with
  | None => (Raise FileNotFoundError, (app, w))
  | Some (Dir _) => (Raise IsADirectoryError, (app, w))
  | Some (File bytes) =>
      let ls := keepends (universal_newlines bytes) in
      let app1 := App.set_lines ls app in
      if (length ls =? 0)%nat
      then (Ok (-1, None), (App.set_error (empty_file_error p) app1, w))
      else
        match find (App.query app) ls with
        | Raise e => (Raise e, (app1, w))
        | Ok (idx, cur) =>
            if idx =? -1
            then (Ok (-1, None),
                  (App.set_error
                     (not_found_error (App.name app) (App.query app) p) app1, w))
            else (Ok (idx, Some cur), (app1, w))
        end
  end.
Proof.
  unfold App.find_current_theme, App.read_lines, App.path, App.self_,
    App.world_, App.assign, App.fail_with, Files.get_path, Files.readlines,
    zoom, bind, gets, modify, ret, raise. cbn [fst snd].
  destruct (fs w !! expanduser w (App.file app)) as [[bytes|names]|];
    try reflexivity.
  cbv zeta. cbn [fst snd App._lines App.set_lines App.query App.name App.file].
  destruct (length (keepends (universal_newlines bytes)) =? 0)%nat; [reflexivity|].
  cbn [fst snd App._lines App.set_lines App.query App.name App.file].
  destruct (find (App.query app) (keepends (universal_newlines bytes)))
    as [[idx cur]|e]; [|reflexivity].
  destruct (idx =? -1); reflexivity.
Qed.

(** [has_changes(mode)] once the current theme is found on line [idx]. *)
Lemma has_changes_found (app : App.t) (w : World) (mode : str) bytes idx cur :
  fs w !! expanduser w (App.file app) = Some (File bytes) ->
  find (App.query app) (keepends (universal_newlines bytes)) = Ok (idx, cur) ->
  idx <> -1 ->
  let ls := keepends (universal_newlines bytes) in
  App.has_changes mode (app, w) =
  match getitem ls idx with
  | None => (Raise IndexError, (App.set_line_idx idx (App.set_lines ls app), w))
  | Some line =>
      let app2 := App.set_original line (App.set_line_idx idx (App.set_lines ls app)) in
      match App.get_mode app mode with
      | None => (Raise ThemeModeError, (app2, w))
      | Some v =>
          if (length v =? 0)%nat then (Raise ThemeModeError, (app2, w))
          else
            let next := str_replace cur v line in
            (Ok (if str_eqb cur mode then false else negb (str_eqb line next)),
             (with_match ls idx line next app, w))
      end
  end.
Proof.
  intros Hfs Hfind Hidx ls.
  unfold App.has_changes.
  erewrite bind_ok; [|exact (find_current_theme_found app w bytes idx cur Hfs Hfind Hidx)].
  cbn beta iota. destruct (Z.eqb_spec idx (-1)) as [|_]; [contradiction|].
  fold ls.
  unfold App.determine_next_theme, App.self_, App.assign, bind, gets, modify,
    ret, raise.
  cbn [fst snd App._lines App.set_lines App.set_line_idx].
  destruct (getitem ls idx) as [line|] eqn:Hget; [|reflexivity].
  cbn [fst snd id App._lines App._line_idx App.set_lines App.set_line_idx
         App.set_original App.original].
  change (App.get_mode (App.set_original line
            (App.set_line_idx idx (App.set_lines ls app))) mode)
    with (App.get_mode app mode).
  destruct (App.get_mode app mode) as [v|]; [|reflexivity].
  destruct (length v =? 0)%nat; [reflexivity|].
  rewrite Hget.
  cbn [fst snd App.set_next_theme App.original App.set_line_idx App.set_original].
  destruct (str_eqb cur mode); reflexivity.
Qed.

Lemma has_changes_no_theme (app : App.t) (w : World) (mode : str) idx s' :
  App.find_current_theme (app, w) = (Ok (idx, None), s') ->
  App.has_changes mode (app, w) = (Ok false, s').
Proof. intros H. unfold App.has_changes. erewrite bind_ok by exact H. reflexivity. Qed.

Lemma has_changes_raise (app : App.t) (w : World) (mode : str) e s' :
  App.find_current_theme (app, w) = (Raise e, s') ->
  App.has_changes mode (app, w) = (Raise e, s').
Proof. intros H. unfold App.has_changes. now erewrite bind_raise by exact H. Qed.

Lemma colorize_set_fs f w text styles :
  colorize (set_fs f w) text styles = colorize w text styles.
Proof. reflexivity. Qed.

(** The four labels of [update] are different strings, coloured or not. *)
Lemma applied_is_not_another_status (w : World) :
  colorize w (py "applied") [ITALIC; BLUE] <> colorize w (py "no changes") [ITALIC; YELLOW] /\
  colorize w (py "applied") [ITALIC; BLUE] <> colorize w (py "err not updated") [ITALIC; RED] /\
  colorize w (py "applied") [ITALIC; BLUE] <> colorize w (py "dry run") [ITALIC; CYAN].
Proof.
  unfold colorize. destruct (no_color w), (sys_color w); cbn; repeat split; discriminate.
Qed.

(** Projections of pairs and of the fields of an application. *)
Ltac proj :=
  cbn [fst snd id App.name App.file App.query App.light App.dark App.cmd
       App.dry_run App.original App.status App._line_idx App._next_theme
       App.error App._lines App.set_original App.set_status App.set_line_idx
       App.set_next_theme App.set_error App.set_lines].

Ltac proj_in H :=
  cbn [fst snd id App.name App.file App.query App.light App.dark App.cmd
       App.dry_run App.original App.status App._line_idx App._next_theme
       App.error App._lines App.set_original App.set_status App.set_line_idx
       App.set_next_theme App.set_error App.set_lines] in H.

(** [update(mode)] after [has_changes(mode)] answered. *)
Lemma update_after_has_changes (app : App.t) (w : World) (mode : str) changed app1 :
  App.has_changes mode (app, w) = (Ok changed, (app1, w)) ->
  App.update mode (app, w) =
  if negb changed
  then (Ok tt, (App.set_status (colorize w (py "no changes") [ITALIC; YELLOW]) app1, w))
  else if (length (App._next_theme app1) =? 0)%nat
  then (Ok tt, (App.set_status (colorize w (py "err not updated") [ITALIC; RED]) app1, w))
  else if App.dry_run app1
  then (Ok tt, (App.set_status (colorize w (py "dry run") [ITALIC; CYAN]) app1, w))
  else
    match setitem (App._lines app1) (App._line_idx app1) (App._next_theme app1) with
    | None => (Raise IndexError, (app1, w))
    | Some ls' =>
        let p := expanduser w (App.file app1) in
        match fs w !! p with
        | Some (Dir _) => (Raise IsADirectoryError, (App.set_lines ls' app1, w))
        | _ =>
            (Ok tt,
             (App.set_status (colorize w (py "applied") [ITALIC; BLUE])
                (App.set_lines ls' app1),
              set_fs (<[p := File (concat ls')]> (fs w)) w))
        end
    end.
Proof.
  intros H. unfold App.update. erewrite bind_ok by exact H.
  destruct changed; cbn [negb]; [|reflexivity].
  unfold App.set_status_colorized, App.replace, App.path.
  unfold App.self_, App.world_, App.assign, Files.get_path, Files.savelines,
    zoom, bind, gets, modify, ret, raise. proj.
  destruct (length (App._next_theme app1) =? 0)%nat; [reflexivity|]. proj.
  destruct (App.dry_run app1); [reflexivity|]. proj.
  destruct (setitem _ _ _) as [ls'|]; [|reflexivity]. proj.
  destruct (fs w !! expanduser w (App.file app1)) as [[?|?]|]; reflexivity.
Qed.

(** What a successful update did: it found the current theme [cur] on line
    [idx], replaced that line by [next] in the lines it had read, and wrote
    the lines. *)
Lemma update_applied_inv (app app' : App.t) (w w' : World) (mode : str) :
  App.update mode (app, w) = (Ok tt, (app', w')) ->
  App.status app' = colorize w (py "applied") [ITALIC; BLUE] ->
  exists bytes idx cur line v ls',
    let p := expanduser w (App.file app) in
    let ls := keepends (universal_newlines bytes) in
    let next := str_replace cur v line in
    fs w !! p = Some (File bytes) /\
    find (App.query app) ls = Ok (idx, cur) /\ idx <> -1 /\
    getitem ls idx = Some line /\
    App.get_mode app mode = Some v /\ v <> [] /\
    setitem ls idx next = Some ls' /\
    w' = set_fs (<[p := File (concat ls')]> (fs w)) w /\
    app' = App.set_status (colorize w (py "applied") [ITALIC; BLUE])
             (App.set_lines ls' (with_match ls idx line next app)).
Proof.
  intros Hupd Hstatus.
  destruct (applied_is_not_another_status w) as (Hn1 & Hn2 & Hn3).
  pose proof (find_current_theme_steps app w) as Hfct. cbv zeta in Hfct.
  destruct (fs w !! expanduser w (App.file app)) as [[bytes|names]|] eqn:Hfs.
  2,3: (unfold App.update in Hupd;
        erewrite bind_raise in Hupd
          by (eapply has_changes_raise; exact Hfct); discriminate).
  set (ls := keepends (universal_newlines bytes)) in *.
  assert (Hno : forall idx s1,
            App.find_current_theme (app, w) = (Ok (idx, None), (s1, w)) -> False).
  { intros idx s1 H. apply (has_changes_no_theme app w mode) in H.
    rewrite (update_after_has_changes _ _ _ _ _ H) in Hupd. cbn [negb] in Hupd.
    injection Hupd as <- _. cbn [App.status App.set_status] in Hstatus.
    exact (Hn1 (eq_sym Hstatus)). }
  destruct (length ls =? 0)%nat; [exfalso; eapply Hno; exact Hfct|].
  destruct (find (App.query app) ls) as [[idx cur]|e] eqn:Hfind.
  2:{ unfold App.update in Hupd.
      erewrite bind_raise in Hupd by (eapply has_changes_raise; exact Hfct).
      discriminate. }
  destruct (Z.eqb_spec idx (-1)) as [|Hidx]; [exfalso; eapply Hno; exact Hfct|].
  pose proof (has_changes_found app w mode bytes idx cur Hfs Hfind Hidx) as Hhc.
  cbv zeta in Hhc. fold ls in Hhc.
  destruct (getitem ls idx) as [line|] eqn:Hget.
  2:{ unfold App.update in Hupd. erewrite bind_raise in Hupd by exact Hhc.
      discriminate. }
  destruct (App.get_mode app mode) as [v|] eqn:Hmode.
  2:{ unfold App.update in Hupd. erewrite bind_raise in Hupd by exact Hhc.
      discriminate. }
  destruct (length v =? 0)%nat eqn:Hv.
  { unfold App.update in Hupd. erewrite bind_raise in Hupd by exact Hhc.
    discriminate. }
  apply length_eqb_0_cons in Hv.
  rewrite (update_after_has_changes _ _ _ _ _ Hhc) in Hupd.
  set (next := str_replace cur v line) in *.
  change (App._next_theme (with_match ls idx line next app)) with next in Hupd.
  change (App.dry_run (with_match ls idx line next app))
    with (App.dry_run app) in Hupd.
  change (App._lines (with_match ls idx line next app)) with ls in Hupd.
  change (App._line_idx (with_match ls idx line next app)) with idx in Hupd.
  change (App.file (with_match ls idx line next app)) with (App.file app) in Hupd.
  destruct (negb _).
  { injection Hupd as <- _. cbn [App.status App.set_status] in Hstatus.
    exfalso. exact (Hn1 (eq_sym Hstatus)). }
  destruct (length next =? 0)%nat.
  { injection Hupd as <- _. cbn [App.status App.set_status] in Hstatus.
    exfalso. exact (Hn2 (eq_sym Hstatus)). }
  destruct (App.dry_run app).
  { injection Hupd as <- _. cbn [App.status App.set_status] in Hstatus.
    exfalso. exact (Hn3 (eq_sym Hstatus)). }
  destruct (setitem ls idx next) as [ls'|] eqn:Hset; [|discriminate].
  cbv zeta in Hupd. rewrite Hfs in Hupd. injection Hupd as <- <-.
  exists bytes, idx, cur, line, v, ls'. cbv zeta. fold ls. fold next.
  repeat split; try assumption; reflexivity.
Qed.

(** ** Reading and writing lines *)

Lemma universal_newlines_no_cr (s : str) :
  Forall (fun c => c <> CR) s -> universal_newlines s = s.
Proof.
  induction 1 as [|c s Hc _ IH]; [reflexivity|].
  cbn [universal_newlines].
  destruct (Ascii.eqb_spec c CR); [contradiction|]. now rewrite IH.
Qed.

Lemma concat_keepends (s : str) : concat (keepends s) = s.
Proof.
  induction s as [|c s IH]; [reflexivity|].
  cbn [keepends]. destruct (Ascii.eqb c LF).
  - cbn [concat app]. now rewrite IH.
  - destruct (keepends s) as [|l ls]; cbn [concat app] in *.
    + now subst.
    + now rewrite IH.
Qed.

Lemma find_loop_index (r : regex) (k : Z) (ls : list str) idx t :
  find_loop r k ls = Ok (idx, t) ->
  idx = -1 \/ (k <= idx < k + Z.of_nat (length ls)).
Proof.
  revert k. induction ls as [|l ls IH]; intros k H; cbn [find_loop] in H.
  - left. congruence.
  - destruct (re_search r l) as [[|g gs]|].
    + discriminate.
    + injection H as <- _. right. cbn [length]. lia.
    + destruct (IH _ H) as [|]; [now left|right]. cbn [length]. lia.
Qed.

Lemma find_index (query : str) (ls : list str) idx t :
  find query ls = Ok (idx, t) ->
  idx = -1 \/ (0 <= idx < Z.of_nat (length ls)).
Proof.
  unfold find. intros H.
  destruct (length ls =? 0)%nat; [left; congruence|].
  destruct (length query =? 0)%nat; [left; congruence|].
  destruct (negb _); [left; congruence|].
  destruct (re_compile _) as [r|]; [|discriminate].
  apply find_loop_index in H. lia.
Qed.

Lemma getitem_nat {A} (xs : list A) (i : Z) :
  0 <= i < Z.of_nat (length xs) -> getitem xs i = xs !! Z.to_nat i.
Proof.
  intros H. unfold getitem.
  destruct (Z.leb_spec 0 i); [|lia]. destruct (Z.ltb_spec i (Z.of_nat (length xs))); [|lia].
  reflexivity.
Qed.

Lemma setitem_nat {A} (xs : list A) (i : Z) (x : A) :
  0 <= i < Z.of_nat (length xs) -> setitem xs i x = Some (<[Z.to_nat i := x]> xs).
Proof.
  intros H. unfold setitem.
  destruct (Z.leb_spec 0 i); [|lia]. destruct (Z.ltb_spec i (Z.of_nat (length xs))); [|lia].
  reflexivity.
Qed.

Lemma concat_insert (ls : list str) (i : nat) (line x : str) :
  ls !! i = Some line ->
  concat ls = concat (take i ls) ++ line ++ concat (drop (S i) ls) /\
  concat (<[i := x]> ls) = concat (take i ls) ++ x ++ concat (drop (S i) ls).
Proof.
  intros H. split.
  - rewrite <- (take_drop_middle ls i line H) at 1.
    now rewrite concat_app, concat_cons.
  - rewrite insert_take_drop by (eapply lookup_lt_Some; eassumption).
    now rewrite concat_app, concat_cons.
Qed.




(** ** Lines written and read again *)

Lemma keepends_terminated (body tail : str) :
  no_lf body -> keepends (body ++ LF :: tail) = (body ++ [LF]) :: keepends tail.
Proof.
  induction 1 as [|c body Hc _ IH]; [reflexivity|].
  cbn [app keepends]. destruct (Ascii.eqb_spec c LF); [contradiction|].
  now rewrite IH.
Qed.

Lemma keepends_unterminated (body : str) :
  no_lf body -> body <> [] -> keepends body = [body].
Proof.
  induction 1 as [|c body Hc Hbody IH]; intros Hne; [contradiction|].
  cbn [keepends]. destruct (Ascii.eqb_spec c LF); [contradiction|].
  destruct body as [|c' body]; [reflexivity|]. now rewrite IH.
Qed.

Lemma keepends_lines_ok (s : str) : lines_ok (keepends s).
Proof.
  induction s as [|c s IH]; [exact I|].
  cbn [keepends]. destruct (Ascii.eqb_spec c LF) as [->|Hc].
  - split; [|assumption]. exists []. split; [constructor|now left].
  - destruct (keepends s) as [|l ls].
    + split; [|exact I]. exists [c]. split; [now repeat constructor|].
      right. now repeat split.
    + destruct IH as [(body & Hbody & Hl) Hls]. split; [|assumption].
      exists (c :: body). split; [now constructor|].
      destruct Hl as [-> | (Hlast & Hne & ->)]; [now left|].
      right. now repeat split.
Qed.

Lemma keepends_concat (ls : list str) : lines_ok ls -> keepends (concat ls) = ls.
Proof.
  induction ls as [|l ls IH]; [reflexivity|].
  intros [(body & Hbody & Hl) Hls]. cbn [concat].
  destruct Hl as [-> | (-> & Hne & ->)].
  - rewrite <- app_assoc. cbn [app]. rewrite keepends_terminated by assumption.
    now rewrite IH.
  - cbn [concat]. rewrite app_nil_r. now apply keepends_unterminated.
Qed.

Lemma lines_ok_insert (ls : list str) (i : nat) (line next : str) :
  lines_ok ls -> ls !! i = Some line ->
  (forall P : Prop, is_line P line -> is_line P next) ->
  lines_ok (<[i := next]> ls).
Proof.
  revert i. induction ls as [|l ls IH]; intros i Hok Hi Hshape; [exact I|].
  destruct Hok as [Hl Hls]. destruct i as [|i]; cbn in *.
  - injection Hi as ->. split; [|assumption]. now apply Hshape.
  - split; [|now apply IH].
    destruct Hl as (body & Hbody & [-> | (Hlast & Hne & ->)]).
    + exists body. split; [assumption|now left].
    + subst ls. discriminate.
Qed.

Lemma universal_newlines_cr_free (s : str) :
  Forall (fun c => c <> CR) (universal_newlines s).
Proof.
  induction s as [s IH] using (induction_ltof1 _ (@length ascii)).
  destruct s as [|c s]; [constructor|]. cbn [universal_newlines].
  destruct (Ascii.eqb_spec c CR) as [->|Hc].
  - constructor; [discriminate|]. destruct s as [|c2 s]; [constructor|].
    destruct (Ascii.eqb c2 LF); apply IH; unfold ltof; simpl; lia.
  - constructor; [assumption|]. apply IH. unfold ltof. simpl. lia.
Qed.

(** Replacing a token without whitespace by another one keeps the shape of
    a line and brings in no CR. *)
Lemma token_swap_is_line (P : Prop) (x y cur v : str) :
  cur <> [] -> Forall nonspace cur -> Forall nonspace v -> v <> [] ->
  is_line P (x ++ cur ++ y) -> is_line P (x ++ v ++ y).
Proof.
  intros Hcur Hns Hv Hvne (body & Hbody & Hl).
  assert (Hvlf : no_lf v).
  { eapply Forall_impl; [exact Hv|]. intros c Hc ->. discriminate Hc. }
  destruct Hl as [Hl | (HP & Hne & Hl)].
  - destruct y as [|c y _] using rev_ind.
    + exfalso. rewrite app_nil_r in Hl.
      destruct cur as [|c cur _] using rev_ind; [contradiction|].
      rewrite app_assoc in Hl. apply app_inj_tail in Hl as [_ ->].
      apply Forall_app in Hns as [_ Hc]. inversion Hc as [|? ? Hlf _].
      discriminate Hlf.
    + rewrite !app_assoc in Hl. apply app_inj_tail in Hl as [<- ->].
      rewrite <- !app_assoc in Hbody.
      apply Forall_app in Hbody as [Hx Hbody].
      apply Forall_app in Hbody as [_ Hy].
      exists (x ++ v ++ y). split.
      * apply Forall_app. split; [assumption|]. apply Forall_app. now split.
      * left. now rewrite <- !app_assoc.
  - subst body. apply Forall_app in Hbody as [Hx Hbody].
    apply Forall_app in Hbody as [_ Hy].
    exists (x ++ v ++ y). split.
    + apply Forall_app. split; [assumption|]. apply Forall_app. now split.
    + right. split; [assumption|]. split; [|reflexivity].
      destruct x; [|discriminate]. destruct v; [contradiction|discriminate].
Qed.

(** ** [str.replace] *)

Lemma replace_from_prefix (old new x rest : str) :
  occurrences old (x ++ rest) = occurrences old rest ->
  replace_from old new 0 (x ++ rest) = x ++ replace_from old new 0 rest.
Proof.
  induction x as [|c x IH]; intros H; [reflexivity|].
  apply occurrences_app_same in H as [Hstart H].
  cbn [app] in *. rewrite replace_from_0_cons by assumption. now rewrite IH.
Qed.

Lemma replace_from_skip (old new x rest : str) :
  replace_from old new (length x) (x ++ rest) = replace_from old new 0 rest.
Proof.
  induction x as [|c x IH]; [reflexivity|]. cbn [length app replace_from]. exact IH.
Qed.

Lemma replace_from_occurrence (old new rest : str) :
  old <> [] ->
  replace_from old new 0 (old ++ rest) = new ++ replace_from old new 0 rest.
Proof.
  intros Hne. destruct old as [|c old]; [contradiction|].
  change ((c :: old) ++ rest) with (c :: (old ++ rest)).
  cbn [replace_from].
  change (c :: (old ++ rest)) with ((c :: old) ++ rest).
  rewrite startswith_app.
  replace (length (c :: old) - 1)%nat with (length old) by (cbn [length]; lia).
  now rewrite replace_from_skip.
Qed.

Lemma replace_from_none (old new y : str) :
  occurrences old y = 0%nat -> replace_from old new 0 y = y.
Proof.
  intros H. pose proof (replace_from_prefix old new y []) as E.
  rewrite app_nil_r in E. rewrite E.
  - cbn [replace_from]. apply app_nil_r.
  - rewrite H. destruct old; [|reflexivity]. destruct y; discriminate H.
Qed.

(** A string that occurs once is replaced where it stands. *)
Lemma str_replace_once (x cur v y : str) :
  cur <> [] ->
  occurrences cur (x ++ cur ++ y) = 1%nat ->
  str_replace cur v (x ++ cur ++ y) = x ++ v ++ y.
Proof.
  intros Hne H. destruct cur as [|c cur]; [contradiction|].
  cbn [str_replace].
  pose proof (occurrences_app_ge (c :: cur) x ((c :: cur) ++ y)) as H1.
  pose proof (occurrences_app_ge (c :: cur) cur y) as H2.
  assert (H3 : occurrences (c :: cur) ((c :: cur) ++ y) =
               S (occurrences (c :: cur) (cur ++ y))).
  { change ((c :: cur) ++ y) with (c :: (cur ++ y)) at 1. cbn [occurrences].
    change (c :: (cur ++ y)) with ((c :: cur) ++ y).
    now rewrite startswith_app. }
  rewrite replace_from_prefix by lia.
  rewrite replace_from_occurrence by discriminate.
  rewrite replace_from_none by lia. reflexivity.
Qed.

Lemma replace_from_same (c0 : ascii) (old s : str) (k : nat) :
  replace_from (c0 :: old) (c0 :: old) k s = drop k s.
Proof.
  revert k. induction s as [|c s IH]; intros k; [now destruct k|].
  cbn [replace_from]. destruct k as [|k]; [|apply IH].
  destruct (startswith (c0 :: old) (c :: s)) eqn:E.
  - apply startswith_inv in E as [rest E]. rewrite IH.
    cbn [app] in E. injection E as -> ->.
    replace (length (c0 :: old) - 1)%nat with (length old) by (cbn [length]; lia).
    now rewrite drop_app_length.
  - now rewrite IH.
Qed.

Lemma str_replace_same (old s : str) : str_replace old old s = s.
Proof.
  destruct old as [|c old].
  - cbn. induction s as [|c s IH]; [reflexivity|]. cbn. now rewrite IH.
  - cbn [str_replace]. apply replace_from_same.
Qed.

(** ** The line after the update *)

Lemma app_eq_le {A} (x y x' y' : list A) :
  x ++ y = x' ++ y' -> (length x <= length x')%nat ->
  exists z, x' = x ++ z /\ y = z ++ y'.
Proof.
  revert x'. induction x as [|c x IH]; intros x' H Hlen.
  - exists x'. now split.
  - destruct x' as [|c' x']; [simpl in Hlen; lia|].
    cbn [app] in H. injection H as -> H. cbn [length] in Hlen.
    destruct (IH x' H) as (z & -> & ->); [lia|]. now exists z.
Qed.

Lemma app_eq_same_length {A} (x y x' y' : list A) :
  x ++ y = x' ++ y' -> length x = length x' -> x = x' /\ y = y'.
Proof.
  intros H Hlen. destruct (app_eq_le x y x' y' H) as (z & -> & ->); [lia|].
  rewrite length_app in Hlen. destruct z; [|simpl in Hlen; lia].
  now rewrite app_nil_r.
Qed.

Section RewrittenLine.

Variables pre suf a cur b v : str.
Local Abbreviation r := (map ALit pre ++ AGroup :: map ALit suf).
Local Abbreviation line := (a ++ pre ++ cur ++ suf ++ b).
Local Abbreviation next := (a ++ pre ++ v ++ suf ++ b).

Hypothesis suf_nonspace : Forall nonspace suf.
Hypothesis v_nonspace : Forall nonspace v.
Hypothesis v_not_empty : v <> [].
Hypothesis cur_nonspace : Forall nonspace cur.
Hypothesis cur_not_empty : cur <> [].
Hypothesis first_and_longest :
  forall a' t', match_in pre suf line a' t' ->
    (length a <= length a')%nat /\
    (length a' = length a -> (length t' <= length cur)%nat).

Lemma next_no_earlier_match (a' t' : str) :
  match_in pre suf next a' t' -> (length a <= length a')%nat.
Proof.
  intros (Hne & Hns & b' & Hb').
  destruct (le_lt_dec (length a) (length a')) as [|Hlt]; [assumption|exfalso].
  destruct (app_eq_le a' (pre ++ t' ++ suf ++ b') a (pre ++ v ++ suf ++ b))
    as (u0 & Ha & Hrest); [now symmetry|lia|].
  assert (Hu0 : u0 <> []).
  { intros ->. rewrite app_nil_r in Ha. subst. lia. }
  (* the text between the two places: [u0 ++ pre] starts with [pre] *)
  destruct (app_eq_le pre (t' ++ suf ++ b') (u0 ++ pre) (v ++ suf ++ b))
    as (u & Hu & Hafter).
  { rewrite <- app_assoc. exact Hrest. }
  { rewrite length_app. lia. }
  assert (Hline : line = a' ++ pre ++ u ++ cur ++ suf ++ b).
  { rewrite Ha, <- !app_assoc.
    rewrite (app_assoc u0 pre), Hu, <- !app_assoc. reflexivity. }
  assert (Hulen : length u = length u0).
  { apply (f_equal length) in Hu. rewrite !length_app in Hu. lia. }
  destruct (le_lt_dec (length (t' ++ suf)) (length u)) as [Hle|Hgt].
  - (* the match ends before the token: it is a match of the old line *)
    destruct (app_eq_le (t' ++ suf) b' u (v ++ suf ++ b)) as (z & Hz & _);
      [now rewrite <- app_assoc|assumption|].
    assert (Hm : match_in pre suf line a' t').
    { split; [assumption|]. split; [assumption|].
      exists (z ++ cur ++ suf ++ b). rewrite Hline, Hz, <- !app_assoc.
      reflexivity. }
    apply first_and_longest in Hm. lia.
  - (* the match runs into the token: the old token can be extended *)
    destruct (app_eq_le u (v ++ suf ++ b) (t' ++ suf) b') as (z & Hz & _);
      [now rewrite <- app_assoc|lia|].
    assert (Hm : match_in pre suf line a' (u ++ cur)).
    { split; [destruct u; [now destruct u0|discriminate]|]. split.
      - apply Forall_app. split; [|assumption].
        assert (Hts : Forall nonspace (t' ++ suf)) by (apply Forall_app; now split).
        rewrite Hz in Hts. now apply Forall_app in Hts as [? _].
      - exists b. rewrite Hline, <- !app_assoc. reflexivity. }
    apply first_and_longest in Hm. lia.
Qed.

Lemma next_longest_token (t' : str) :
  match_in pre suf next a t' -> (length t' <= length v)%nat.
Proof.
  intros (Hne & Hns & b' & Hb').
  destruct (le_lt_dec (length t') (length v)) as [|Hlt]; [assumption|exfalso].
  apply app_inv_head in Hb'. apply app_inv_head in Hb'.
  destruct (app_eq_le v (suf ++ b) t' (suf ++ b')) as (z & Hz & Hafter);
    [assumption|lia|].
  assert (Hm : match_in pre suf line a (cur ++ z)).
  { split; [destruct cur; [contradiction|discriminate]|]. split.
    - apply Forall_app. split; [assumption|].
      rewrite Hz in Hns. now apply Forall_app in Hns as [_ ?].
    - exists b'. rewrite Hafter, <- !app_assoc. reflexivity. }
  apply first_and_longest in Hm as [_ Hm]. specialize (Hm eq_refl).
  rewrite Hz in Hlt. rewrite !length_app in *. lia.
Qed.

(** In the rewritten line the query is found where it was, and the token
    is the new value. *)
Lemma rewritten_line_search : re_search r next = Some [v].
Proof.
  assert (Hm : match_in pre suf next a v).
  { split; [assumption|]. split; [assumption|]. now exists b. }
  destruct (re_search r next) as [gs|] eqn:E.
  2:{ exfalso. apply (search_none_no_match pre suf next E). now exists a, v. }
  apply search_some_match in E as (a1 & t1 & -> & Hm1 & Hleft).
  destruct (Hleft a v Hm) as [Hle Hlong].
  pose proof (next_no_earlier_match a1 t1 Hm1) as Hge.
  destruct Hm1 as (Hne1 & Hns1 & b1 & Hb1).
  destruct (app_eq_same_length a (pre ++ v ++ suf ++ b) a1 (pre ++ t1 ++ suf ++ b1))
    as [<- Hrest]; [assumption|lia|].
  assert (Hlen : (length t1 <= length v)%nat).
  { apply next_longest_token. split; [assumption|]. split; [assumption|].
    now exists b1. }
  apply app_inv_head in Hrest.
  destruct (app_eq_same_length v (suf ++ b) t1 (suf ++ b1)) as [<- _];
    [assumption|specialize (Hlong eq_refl); lia|].
  reflexivity.
Qed.

End RewrittenLine.

(** ** Updating twice *)

Lemma find_one_placeholder (pre suf : str) (ls : list str) :
  occurrences PLACEHOLDER (pre ++ PLACEHOLDER ++ suf) = 1%nat ->
  find (pre ++ PLACEHOLDER ++ suf) ls =
  find_loop (map ALit pre ++ AGroup :: map ALit suf) 0 ls.
Proof.
  intros Hone. unfold find. destruct ls as [|l ls]; [reflexivity|].
  cbn [length Nat.eqb].
  assert ((length (pre ++ PLACEHOLDER ++ suf) =? 0)%nat = false) as ->.
  { rewrite !length_app. change (length PLACEHOLDER) with 7%nat.
    apply Nat.eqb_neq. lia. }
  rewrite contains_app. cbn [negb]. cbv zeta. now rewrite compile_query.
Qed.

Lemma find_loop_found_inv (r : regex) (k : Z) (ls : list str) idx t :
  find_loop r k ls = Ok (idx, t) -> idx <> -1 ->
  exists i line gs,
    idx = k + Z.of_nat i /\ ls !! i = Some line /\
    re_search r line = Some (t :: gs) /\
    forall j line', (j < i)%nat -> ls !! j = Some line' ->
      re_search r line' = None.
Proof.
  revert k. induction ls as [|l ls IH]; intros k H Hidx; cbn [find_loop] in H.
  - congruence.
  - destruct (re_search r l) as [[|g gs]|] eqn:E; [discriminate| |].
    + injection H as <- <-. exists 0%nat, l, gs.
      split; [lia|]. split; [reflexivity|]. split; [assumption|]. intros; lia.
    + destruct (IH _ H Hidx) as (i & line & gs & -> & Hi & Hs & Hfirst).
      exists (S i), line, gs.
      split; [lia|]. split; [assumption|]. split; [assumption|].
      intros [|j] line' Hj Hl; cbn in Hl.
      * now injection Hl as <-.
      * apply (Hfirst j); [lia|assumption].
Qed.

Lemma find_loop_first (r : regex) (k : Z) (ls : list str) i line t gs :
  ls !! i = Some line -> re_search r line = Some (t :: gs) ->
  (forall j line', (j < i)%nat -> ls !! j = Some line' ->
     re_search r line' = None) ->
  find_loop r k ls = Ok (k + Z.of_nat i, t).
Proof.
  revert k i. induction ls as [|l ls IH]; intros k i Hi Hs Hfirst; [discriminate|].
  cbn [find_loop]. destruct i as [|i]; cbn in Hi.
  - injection Hi as ->. rewrite Hs. now rewrite Z.add_0_r.
  - rewrite (Hfirst 0%nat l) by (reflexivity || lia).
    rewrite (IH (k + 1) i Hi Hs).
    + f_equal. f_equal. lia.
    + intros j line' Hj Hl. apply (Hfirst (S j)); [lia|assumption].
Qed.

Lemma nonspace_no_cr (s : str) : Forall nonspace s -> Forall (fun c => c <> CR) s.
Proof.
  intros H. eapply Forall_impl; [exact H|]. intros c Hc ->. discriminate Hc.
Qed.

Lemma Forall_concat_parts {A} (P : A -> Prop) (ls : list (list A)) (i : nat) l :
  ls !! i = Some l -> Forall P (concat ls) ->
  Forall P (concat (take i ls)) /\ Forall P l /\ Forall P (concat (drop (S i) ls)).
Proof.
  intros Hi H. rewrite <- (take_drop_middle ls i l Hi) in H.
  rewrite concat_app, concat_cons in H.
  apply Forall_app in H as [H1 H]. apply Forall_app in H as [H2 H3]. auto.
Qed.




(** ** The orchestration *)

Lemma extends_refl w : extends w w.
Proof. repeat split. exists []. now rewrite app_nil_r. Qed.

Lemma extends_trans w1 w2 w3 : extends w1 w2 -> extends w2 w3 -> extends w1 w3.
Proof.
  intros (A1 & A2 & A3 & A4 & A5 & A6 & A7 & A8 & e1 & A9)
         (B1 & B2 & B3 & B4 & B5 & B6 & B7 & B8 & e2 & B9).
  repeat split; try congruence.
  exists (e1 ++ e2). rewrite B9, A9. now rewrite app_assoc.
Qed.


Lemma extends_set_fs f w : extends w (set_fs f w).
Proof. repeat split. exists []. now rewrite app_nil_r. Qed.




Lemma keeps_for_each {S A} (R : S -> S -> Prop) (xs : list A) (body : A -> M S unit) :
  (forall s, R s s) -> (forall s1 s2 s3, R s1 s2 -> R s2 s3 -> R s1 s3) ->
  (forall x, keeps R (body x)) -> keeps R (for_each xs body).
Proof.
  intros Hrefl Htrans Hbody. induction xs as [|x xs IH]; cbn [for_each].
  - now apply keeps_ret.
  - apply keeps_bind; auto.
Qed.












Lemma world_extends_refl s : world_extends s s.
Proof. apply extends_refl. Qed.

Lemma world_extends_trans s1 s2 s3 :
  world_extends s1 s2 -> world_extends s2 s3 -> world_extends s1 s3.
Proof. apply extends_trans. Qed.

Lemma keeps_weaken {S A} (R1 R2 : S -> S -> Prop) (c : M S A) :
  (forall s s', R1 s s' -> R2 s s') -> keeps R1 c -> keeps R2 c.
Proof. intros H Hc s. apply H, Hc. Qed.

Lemma same_world_extends s s' : same_world_and_flag s s' -> world_extends s s'.
Proof. intros [H _]. unfold world_extends. rewrite H. apply extends_refl. Qed.

Lemma keeps_update mode : keeps world_extends (App.update mode).
Proof.
  unfold App.update.
  apply (keeps_bind _ world_extends_trans).
  { eapply keeps_weaken; [apply same_world_extends|apply keeps_has_changes]. }
  intros changed.
  assert (Hstatus : forall text styles,
            keeps world_extends (App.set_status_colorized text styles)).
  { intros. eapply keeps_weaken; [apply same_world_extends|apply keeps_set_status]. }
  destruct (negb changed); [apply Hstatus|].
  apply (keeps_bind _ world_extends_trans); [apply (keeps_gets _ world_extends_refl)|].
  intros next. destruct (length next =? 0)%nat; [apply Hstatus|].
  apply (keeps_bind _ world_extends_trans); [apply (keeps_gets _ world_extends_refl)|].
  intros dry. destruct dry; [apply Hstatus|].
  apply (keeps_bind _ world_extends_trans); [apply (keeps_gets _ world_extends_refl)|].
  intros idx. apply (keeps_bind _ world_extends_trans).
  { unfold App.replace. apply (keeps_bind _ world_extends_trans);
      [apply (keeps_gets _ world_extends_refl)|].
    intros ls. destruct (setitem ls idx next).
    - intros [a w]. apply extends_refl.
    - apply (keeps_raise _ world_extends_refl). }
  intros _. apply (keeps_bind _ world_extends_trans).
  { eapply keeps_weaken; [apply same_world_extends|apply keeps_path]. }
  intros p. apply (keeps_bind _ world_extends_trans);
    [apply (keeps_gets _ world_extends_refl)|].
  intros ls. apply (keeps_bind _ world_extends_trans); [|intros; apply Hstatus].
  intros [a w]. unfold App.world_, zoom, Files.savelines, world_extends. cbn [fst snd].
  destruct (fs w !! p) as [[?|?]|]; cbn [snd];
    first [apply extends_set_fs | apply extends_refl].
Qed.

Lemma keeps_process_app mode : keeps world_extends (process_app mode).
Proof.
  unfold process_app. destruct (length mode =? 0)%nat.
  - apply (keeps_raise _ world_extends_refl).
  - apply (keeps_bind _ world_extends_trans); [apply (keeps_gets _ world_extends_refl)|].
    intros err. destruct (occurred err); [|apply keeps_update].
    eapply keeps_weaken; [apply same_world_extends|apply keeps_set_status].
Qed.

Lemma keeps_call {A} (c : App.method A) (app : App.t) :
  keeps world_extends c -> keeps extends (call c app).
Proof.
  intros H w. unfold call. specialize (H (app, w)). unfold world_extends in H.
  destruct (c (app, w)) as [[a|e] [app' w']]; exact H.
Qed.

Lemma process_apps_spec (mode : str) (apps : list (str * App.t))
    (commander : Commander.t) (updates : Z) (w : World)
    apps' commander' updates' w' :
  process_apps mode apps commander updates w = (Ok (apps', commander', updates'), w') ->
  extends w w' /\
  updates' = updates + Z.of_nat (length (filter without_error apps')) /\
  Commander.cmds commander' =
    Commander.cmds commander ++ omap (fun a => App.cmd (snd a)) (filter without_error apps') /\
  map fst apps' = map fst apps.
Proof.
  revert commander updates w apps' commander' updates' w'.
  induction apps as [|[key app] rest IH];
    intros commander updates w apps' commander' updates' w' H.
  - injection H as <- <- <- <-. split; [apply extends_refl|].
    split; [cbn; lia|]. split; [cbn; now rewrite app_nil_r|reflexivity].
  - cbn [process_apps] in H. unfold bind at 1 in H.
    pose proof (keeps_call _ app (keeps_process_app mode) w) as Hext1.
    destruct (call (process_app mode) app w) as [[[[] app1]|e] w1];
      [|discriminate]. cbn [snd] in H, Hext1.
    destruct (occurred (App.error app1)) eqn:Herr.
    + unfold bind in H.
      destruct (process_apps mode rest commander updates w1)
        as [[[[rest' c'] u']|e] w2] eqn:E; [|discriminate].
      injection H as <- <- <- <-.
      destruct (IH _ _ _ _ _ _ _ E) as (Hext & Hu & Hc & Hk).
      split; [eapply extends_trans; eassumption|].
      rewrite filter_cons_False by (unfold without_error; cbn; congruence).
      split; [assumption|]. split; [assumption|]. cbn. now rewrite Hk.
    + unfold bind in H.
      destruct (process_apps mode rest (Commander.add commander app1) (updates + 1) w1)
        as [[[[rest' c'] u']|e] w2] eqn:E; [|discriminate].
      injection H as <- <- <- <-.
      destruct (IH _ _ _ _ _ _ _ E) as (Hext & Hu & Hc & Hk).
      split; [eapply extends_trans; eassumption|].
      rewrite filter_cons_True by exact Herr.
      split; [cbn [length]; lia|]. split; [|cbn; now rewrite Hk].
      rewrite Hc. unfold Commander.add, Commander.register. cbn [omap list_omap snd].
      destruct (App.cmd app1); cbn [Commander.cmds]; [|reflexivity].
      now rewrite <- app_assoc.
Qed.




(** The run [gruvbox_light_run]: the file says light already, the status of
    the application is 'no changes', no file is written, the counter is 1, and
    the mode command, the command of the application and the signals to
    [dunst] are all there. *)
Example no_changes_still_runs_commands :
  fst gruvbox_light_run = Ok gruvbox_after /\
  map (fun a => App.status (snd a)) (Theme.apps gruvbox_after) = [py "no changes"] /\
  Theme.updates gruvbox_after = 1 /\
  fs (snd gruvbox_light_run) = fs (desktop [(bashrc, File bashrc_light)]) /\
  trace (snd gruvbox_light_run) =
    [EvRun (py "gsettings set org.gnome.desktop.interface color-scheme prefer-light");
     EvRun (py "bat cache --build");
     EvKill 123 SIGUSR1; EvKill 456 SIGUSR1].
Proof. repeat split; vm_compute; reflexivity. Qed.

(** * Further properties *)

(** ** The matcher on every query *)

Lemma escaped_placeholder_app (s : str) :
  re_escape (PLACEHOLDER ++ s) = ESCAPED_PLACEHOLDER ++ re_escape s.
Proof. now rewrite re_escape_app. Qed.

Lemma compile_group (p : str) :
  re_compile (GROUP ++ p) = cons AGroup <$> re_compile p.
Proof. reflexivity. Qed.

(** Every query compiles, and a query with a placeholder compiles to a
    pattern with a group. *)
Lemma compile_any_query (q : str) :
  exists r,
    re_compile (str_replace ESCAPED_PLACEHOLDER GROUP (re_escape q)) = Some r /\
    (contains PLACEHOLDER q = true -> In AGroup r).
Proof.
  change (str_replace ESCAPED_PLACEHOLDER GROUP (re_escape q))
    with (replace_from ESCAPED_PLACEHOLDER GROUP 0 (re_escape q)).
  induction q as [q IH] using (induction_ltof1 _ (@length ascii)).
  destruct q as [|c q]; [exists []; split; [reflexivity|discriminate]|].
  destruct (startswith PLACEHOLDER (c :: q)) eqn:Hstart.
  - apply startswith_inv in Hstart as [rest Hq]. rewrite Hq.
    destruct (IH rest) as (r & Hr & _).
    { unfold ltof. rewrite Hq, length_app. cbn. lia. }
    exists (AGroup :: r). split; [|intros _; now left].
    rewrite escaped_placeholder_app.
    rewrite replace_from_occurrence by discriminate.
    rewrite compile_group, Hr. reflexivity.
  - destruct (IH q) as (r & Hr & Hgroup); [unfold ltof; cbn; lia|].
    exists (ALit c :: r). split.
    + change (c :: q) with ([c] ++ q).
      rewrite replace_escaped_prefix.
      * rewrite compile_escaped, Hr. reflexivity.
      * cbn [app occurrences]. now rewrite Hstart.
    + cbn [contains]. rewrite Hstart. cbn [orb]. intros H. right. auto.
Qed.

(** A pattern with a group captures something wherever it matches. *)
Lemma match_here_captures (r : regex) (s : str) gs :
  In AGroup r -> match_here r s = Some gs -> gs <> [].
Proof.
  revert s gs. induction r as [|[c|] r IH]; intros s gs Hin H; [destruct Hin| |].
  - destruct Hin as [Hin|Hin]; [discriminate|].
    cbn [match_here] in H. destruct s as [|c' s]; [discriminate|].
    destruct (Ascii.eqb c c'); [|discriminate]. now apply (IH s).
  - cbn [match_here] in H.
    apply give_back_some in H as (k & gs' & _ & _ & -> & _). discriminate.
Qed.

Lemma re_search_captures (r : regex) (s : str) :
  In AGroup r -> re_search r s <> Some [].
Proof.
  intros Hin H. apply re_search_some in H as (a & s' & _ & Hm & _).
  now apply (match_here_captures r s' [] Hin Hm).
Qed.

Lemma find_returns (query : str) (list_strings : list str) :
  exists idx theme_value, find query list_strings = Ok (idx, theme_value).
Proof.
  unfold find.
  destruct (length list_strings =? 0)%nat; [now exists (-1), []|].
  destruct (length query =? 0)%nat; [now exists (-1), []|].
  destruct (contains PLACEHOLDER query) eqn:Hph; cbn [negb]; [|now exists (-1), []].
  cbv zeta. destruct (compile_any_query query) as (r & -> & Hgroup).
  specialize (Hgroup Hph).
  destruct (find_loop_total r 0 list_strings)
    as [[-> _] | (i & line & t & gs & -> & _)].
  - intros line _. now apply re_search_captures.
  - now exists (-1), [].
  - now exists (0 + Z.of_nat i), t.
Qed.

(** X1. [find] never raises: for every query and every list of lines it
    returns an index and a value. *)
Theorem find_never_raises (query : str) (list_strings : list str) :
  exists idx theme_value, find query list_strings = Ok (idx, theme_value).
Proof. exact (find_returns query list_strings). Qed.

(** The first group of a match: characters of the text, one or more, none
    of them whitespace. *)
Lemma match_here_first_group (r : regex) (s : str) t gs :
  match_here r s = Some (t :: gs) ->
  t <> [] /\ Forall nonspace t /\ exists x y, s = x ++ t ++ y.
Proof.
  revert s. induction r as [|[c|] r IH]; intros s H; [discriminate| |].
  - cbn [match_here] in H. destruct s as [|c' s]; [discriminate|].
    destruct (Ascii.eqb c c'); [|discriminate].
    destruct (IH s H) as (Hne & Hns & x & y & ->).
    split; [assumption|]. split; [assumption|]. now exists (c' :: x), y.
  - cbn [match_here] in H.
    apply give_back_some in H as (k & gs' & Hk & _ & E & _).
    injection E as -> ->.
    destruct (nonspace_run_take s k) as [Hns Hlen]; [lia|].
    split.
    + intros E. apply (f_equal length) in E. rewrite length_take in E.
      cbn in E. lia.
    + split; [assumption|]. exists [], (drop k s). cbn [app].
      now rewrite take_drop.
Qed.

Lemma find_loop_inv (r : regex) (k : Z) (ls : list str) idx t :
  0 <= k -> find_loop r k ls = Ok (idx, t) ->
  (idx = -1 /\ t = []) \/
  (exists i line gs, idx = k + Z.of_nat i /\ ls !! i = Some line /\
     re_search r line = Some (t :: gs)).
Proof.
  intros Hk H. destruct (Z.eq_dec idx (-1)) as [->|Hidx].
  - left. split; [reflexivity|].
    revert k Hk H. induction ls as [|l ls IH]; intros k Hk H; cbn [find_loop] in H.
    + congruence.
    + destruct (re_search r l) as [[|g gs]|]; [discriminate| |].
      * injection H as H _. lia.
      * apply (IH (k + 1)); [lia|assumption].
  - right. destruct (find_loop_found_inv r k ls idx t H Hidx)
      as (i & line & gs & H1 & H2 & H3 & _).
    now exists i, line, gs.
Qed.

(** X2. What [find] returns is either "not found", -1 with the empty
    string, or the index of a line of the list with a value that is not
    empty, has no whitespace and occurs in that line. *)
Theorem find_result_well_formed (query : str) (list_strings : list str) idx value :
  find query list_strings = Ok (idx, value) ->
  (idx = -1 /\ value = []) \/
  (exists i line,
     idx = Z.of_nat i /\ list_strings !! i = Some line /\
     value <> [] /\ Forall nonspace value /\
     exists x y, line = x ++ value ++ y).
Proof.
  unfold find. intros H.
  destruct (length list_strings =? 0)%nat; [left; split; congruence|].
  destruct (length query =? 0)%nat; [left; split; congruence|].
  destruct (negb _); [left; split; congruence|].
  cbv zeta in H. destruct (re_compile _) as [r|]; [|discriminate].
  destruct (find_loop_inv r 0 list_strings idx value) as [|(i & line & gs & -> & Hi & Hs)];
    [lia|assumption|now left|right].
  exists i, line. split; [lia|]. split; [assumption|].
  apply re_search_some in Hs as (a & s' & -> & Hm & _).
  apply match_here_first_group in Hm as (Hne & Hns & x & y & ->).
  split; [assumption|]. split; [assumption|].
  exists (a ++ x), y. now rewrite <- app_assoc.
Qed.

Lemma find_result_well_formed_witness :
  (1 = -1 /\ py "gruvbox-light" = []) \/
  (exists i line,
     1 = Z.of_nat i /\ keepends bashrc_light !! i = Some line /\
     py "gruvbox-light" <> [] /\ Forall nonspace (py "gruvbox-light") /\
     exists x y, line = x ++ py "gruvbox-light" ++ y).
Proof.
  apply (find_result_well_formed (py "export BAT_THEME={theme}")).
  vm_compute. reflexivity.
Defined.

(** X3. For a query with one placeholder, [find] answers "not found"
    exactly when no line matches the literal form of the query. *)
Theorem find_not_found_iff_no_match (pre suf : str) (list_strings : list str) :
  occurrences PLACEHOLDER (pre ++ PLACEHOLDER ++ suf) = 1%nat ->
  (find (pre ++ PLACEHOLDER ++ suf) list_strings = Ok (-1, []) <->
   forall line, In line list_strings -> ~ line_matches pre suf line).
Proof.
  intros Hone. rewrite find_one_placeholder by assumption.
  destruct (find_loop_total (map ALit pre ++ AGroup :: map ALit suf) 0 list_strings)
    as [[Hf Hnone] | (i & line & t & gs & Hf & Hi & Hs & _)].
  - intros line _ H. apply search_some_match in H as (a & t & E & _). discriminate.
  - rewrite Hf. split; [|reflexivity].
    intros _ line Hin. apply search_none_no_match. now apply Hnone.
  - rewrite Hf. split.
    + intros E. injection E as E _. lia.
    + intros Hno. exfalso. apply (Hno line).
      * apply list_elem_of_In. eapply list_elem_of_lookup_2. eassumption.
      * apply search_some_match in Hs as (a & t0 & _ & Hm & _). now exists a, t0.
Qed.

Lemma find_not_found_iff_no_match_witness :
  find (py "theme=" ++ PLACEHOLDER ++ []) [py "colour=red"] = Ok (-1, []) <->
  forall line, In line [py "colour=red"] -> ~ line_matches (py "theme=") [] line.
Proof. apply find_not_found_iff_no_match. reflexivity. Defined.

(** ** Files written and read *)

Lemma universal_newlines_twice (s : str) :
  universal_newlines (universal_newlines s) = universal_newlines s.
Proof. apply universal_newlines_no_cr, universal_newlines_cr_free. Qed.

Lemma savelines_file (f : str) (lines : list str) (w : World) :
  (forall names, fs w !! f <> Some (Dir names)) ->
  Files.savelines f lines w =
  (Ok tt, set_fs (<[f := File (concat lines)]> (fs w)) w).
Proof.
  intros H. unfold Files.savelines.
  destruct (fs w !! f) as [[bytes|names]|] eqn:E; try reflexivity.
  now destruct (H names).
Qed.

Lemma readlines_after_write (f bytes : str) (m : gmap str node) (w : World) :
  Files.readlines f (set_fs (<[f := File bytes]> m) w) =
  (Ok (keepends (universal_newlines bytes)), set_fs (<[f := File bytes]> m) w).
Proof.
  unfold Files.readlines. cbn [fs set_fs]. now rewrite lookup_insert_eq.
Qed.

(** X4. Reading after writing gives the lines written, when they are
    shaped as [readlines] shapes them: every line ends in LF, but for a
    last line that is not empty, and none holds another LF or a CR. *)
Theorem savelines_then_readlines (f : str) (lines : list str) (w : World) :
  (forall names, fs w !! f <> Some (Dir names)) ->
  lines_ok lines ->
  Forall (Forall (fun c => c <> CR)) lines ->
  exists w', Files.savelines f lines w = (Ok tt, w') /\
             Files.readlines f w' = (Ok lines, w').
Proof.
  intros Hdir Hok Hcr. eexists. split; [now apply savelines_file|].
  rewrite readlines_after_write.
  rewrite universal_newlines_no_cr by now apply Forall_concat.
  now rewrite keepends_concat.
Qed.

Lemma savelines_then_readlines_witness :
  exists w',
    Files.savelines bashrc [py "a=1" ++ [LF]; py "b=2"] (sample_world []) = (Ok tt, w') /\
    Files.readlines bashrc w' = (Ok [py "a=1" ++ [LF]; py "b=2"], w').
Proof.
  apply savelines_then_readlines.
  - intros names. vm_compute. discriminate.
  - split; [exists (py "a=1"); split; [repeat constructor; discriminate|now left]|].
    split; [|exact I]. exists (py "b=2").
    split; [repeat constructor; discriminate|]. right. now repeat split.
  - repeat constructor; discriminate.
Defined.

(** X5. Writing back the lines just read turns every CR LF and CR of the
    file into LF and changes nothing else, so a file without CR is left
    as it was; reading again gives the same lines. *)
Theorem rewrite_lines_just_read (f bytes : str) (w : World) :
  fs w !! f = Some (File bytes) ->
  let lines := keepends (universal_newlines bytes) in
  let w' := set_fs (<[f := File (universal_newlines bytes)]> (fs w)) w in
  Files.readlines f w = (Ok lines, w) /\
  Files.savelines f lines w = (Ok tt, w') /\
  Files.readlines f w' = (Ok lines, w') /\
  (Forall (fun c => c <> CR) bytes -> fs w' = fs w).
Proof.
  intros Hfs lines w'. subst lines w'. split; [|split; [|split]].
  - unfold Files.readlines. now rewrite Hfs.
  - rewrite savelines_file by (intros names; rewrite Hfs; discriminate).
    now rewrite concat_keepends.
  - rewrite readlines_after_write. now rewrite universal_newlines_twice.
  - intros Hcr. cbn [fs set_fs]. rewrite universal_newlines_no_cr by assumption.
    now apply insert_id.
Qed.

Lemma rewrite_lines_just_read_witness :
  let w := sample_world [(bashrc, File bashrc_crlf)] in
  let lines := keepends (universal_newlines bashrc_crlf) in
  let w' := set_fs (<[bashrc := File (universal_newlines bashrc_crlf)]> (fs w)) w in
  Files.readlines bashrc w = (Ok lines, w) /\
  Files.savelines bashrc lines w = (Ok tt, w') /\
  Files.readlines bashrc w' = (Ok lines, w') /\
  (Forall (fun c => c <> CR) bashrc_crlf -> fs w' = fs w).
Proof. apply rewrite_lines_just_read. vm_compute. reflexivity. Defined.

(** ** Nothing to change, nothing written *)

(** X6. When the value found in the file is already the value of the mode,
    or is the name of the mode itself, [update] reports 'no changes' and
    leaves the world as it is. *)
Theorem update_no_changes_when_set
    (app : App.t) (w : World) (mode bytes cur v : str) (idx : Z) :
  fs w !! expanduser w (App.file app) = Some (File bytes) ->
  find (App.query app) (keepends (universal_newlines bytes)) = Ok (idx, cur) ->
  idx <> -1 ->
  App.get_mode app mode = Some v -> v <> [] ->
  cur = v \/ cur = mode ->
  snd (snd (App.update mode (app, w))) = w /\
  fst (App.update mode (app, w)) = Ok tt /\
  App.status (fst (snd (App.update mode (app, w)))) =
    colorize w (py "no changes") [ITALIC; YELLOW].
Proof.
  intros Hfs Hfind Hidx Hmode Hv Hcur.
  pose proof (has_changes_found app w mode bytes idx cur Hfs Hfind Hidx) as Hhc.
  cbv zeta in Hhc.
  destruct (find_index _ _ _ _ Hfind) as [|Hrange]; [contradiction|].
  rewrite getitem_nat in Hhc by assumption.
  destruct (lookup_lt_is_Some_2 (keepends (universal_newlines bytes)) (Z.to_nat idx))
    as [line Hline]; [lia|].
  rewrite Hline, Hmode in Hhc.
  apply length_eqb_0_cons in Hv. rewrite Hv in Hhc.
  assert (Hfalse : (if str_eqb cur mode then false
                    else negb (str_eqb line (str_replace cur v line))) = false).
  { destruct Hcur as [-> | ->].
    - rewrite str_replace_same. unfold str_eqb at 2.
      rewrite bool_decide_eq_true_2 by reflexivity. now destruct (str_eqb v mode).
    - unfold str_eqb at 1. now rewrite bool_decide_eq_true_2. }
  rewrite Hfalse in Hhc.
  rewrite (update_after_has_changes _ _ _ _ _ Hhc). cbn [negb fst snd].
  repeat split.
Qed.

Lemma update_no_changes_when_set_witness :
  let w := sample_world [(bashrc, File bashrc_light)] in
  snd (snd (App.update (py "light") (bat false, w))) = w /\
  fst (App.update (py "light") (bat false, w)) = Ok tt /\
  App.status (fst (snd (App.update (py "light") (bat false, w)))) =
    colorize w (py "no changes") [ITALIC; YELLOW].
Proof.
  cbv zeta.
  apply (update_no_changes_when_set (bat false) _ (py "light") bashrc_light
           (py "gruvbox-light") (py "gruvbox-light") 1).
  - vm_compute. reflexivity.
  - vm_compute. reflexivity.
  - lia.
  - reflexivity.
  - discriminate.
  - now left.
Defined.

(** ** The file after an update *)

(** The file a successful update leaves behind, under the conditions under
    which the new value stands alone at the place of the old one. *)
Lemma updated_file
    (app app' : App.t) (w w' : World) (mode pre suf v bytes cur : str) (idx : Z) :
  App.query app = pre ++ PLACEHOLDER ++ suf ->
  occurrences PLACEHOLDER (App.query app) = 1%nat ->
  Forall nonspace suf ->
  App.get_mode app mode = Some v ->
  Forall nonspace v ->
  fs w !! expanduser w (App.file app) = Some (File bytes) ->
  find (App.query app) (keepends (universal_newlines bytes)) = Ok (idx, cur) ->
  App.update mode (app, w) = (Ok tt, (app', w')) ->
  App.status app' = colorize w (py "applied") [ITALIC; BLUE] ->
  occurrences cur (App.original app') = 1%nat ->
  exists a b,
    let ls := keepends (universal_newlines bytes) in
    let i := Z.to_nat idx in
    let ls' := <[i := a ++ pre ++ v ++ suf ++ b]> ls in
    0 <= idx < Z.of_nat (length ls) /\
    ls !! i = Some (a ++ pre ++ cur ++ suf ++ b) /\
    App._lines app' = ls' /\
    fs w' !! expanduser w' (App.file app') = Some (File (concat ls')) /\
    keepends (universal_newlines (concat ls')) = ls' /\
    find (App.query app') ls' = Ok (idx, v).
Proof.
  intros Hq Hone Hsuf Hmode Hv Hfs Hfind Hupd Hstatus Hocc.
  destruct (update_applied_inv _ _ _ _ _ Hupd Hstatus)
    as (bytes0 & idx0 & cur0 & line & v0 & ls' & H).
  cbv zeta in H.
  destruct H as (Hfs0 & Hfind0 & Hidx & Hget & Hmode0 & Hvne & Hset & Hw' & Happ').
  rewrite Hfs in Hfs0. injection Hfs0 as <-.
  rewrite Hfind in Hfind0. injection Hfind0 as <- <-.
  rewrite Hmode in Hmode0. injection Hmode0 as <-.
  set (ls := keepends (universal_newlines bytes)) in *.
  destruct (find_index _ _ _ _ Hfind) as [|Hrange]; [contradiction|].
  rewrite getitem_nat in Hget by assumption.
  rewrite setitem_nat in Hset by assumption. injection Hset as <-.
  set (i := Z.to_nat idx) in *.
  assert (Horig : App.original app' = line) by (subst app'; reflexivity).
  rewrite Horig in Hocc.
  rewrite Hq in Hone, Hfind. rewrite find_one_placeholder in Hfind by assumption.
  destruct (find_loop_found_inv _ _ _ _ _ Hfind Hidx)
    as (i1 & line1 & gs & Hi1 & Hline1 & Hsearch & Hfirst).
  assert (i1 = i) as -> by (unfold i; lia).
  rewrite Hget in Hline1. injection Hline1 as <-.
  apply search_some_match in Hsearch as (a & t & E & Hm & Hleft).
  injection E as <- ->.
  destruct Hm as (Hcne & Hcns & b & Hline).
  assert (Hnext : str_replace cur v line = a ++ pre ++ v ++ suf ++ b).
  { rewrite Hline in Hocc |- *.
    rewrite (app_assoc a pre), (app_assoc (a ++ pre) cur) in Hocc |- *.
    rewrite <- (app_assoc (a ++ pre) cur) in Hocc |- *.
    rewrite str_replace_once by assumption. now rewrite <- !app_assoc. }
  rewrite Hnext in *. set (next := a ++ pre ++ v ++ suf ++ b) in *.
  assert (Hsearch' : re_search (map ALit pre ++ AGroup :: map ALit suf) next
                     = Some [v]).
  { apply (rewritten_line_search pre suf a cur b v); try assumption.
    rewrite <- Hline. exact Hleft. }
  assert (Hcr : Forall (fun c => c <> CR) (concat (<[i := next]> ls))).
  { destruct (concat_insert ls i line next Hget) as [_ ->].
    pose proof (universal_newlines_cr_free bytes) as Hu.
    rewrite <- (concat_keepends (universal_newlines bytes)) in Hu. fold ls in Hu.
    destruct (Forall_concat_parts _ ls i line Hget Hu) as (H1 & H2 & H3).
    rewrite Hline in H2.
    apply Forall_app in H2 as [Ha H2]. apply Forall_app in H2 as [Hpre H2].
    apply Forall_app in H2 as [_ H2]. apply Forall_app in H2 as [Hs Hb].
    unfold next.
    repeat (apply Forall_app; split); try assumption. now apply nonspace_no_cr. }
  assert (Hok : lines_ok (<[i := next]> ls)).
  { apply (lines_ok_insert ls i line); [apply keepends_lines_ok|assumption|].
    intros P. rewrite Hline. unfold next.
    rewrite !(app_assoc a pre). now apply token_swap_is_line. }
  exists a, b. cbv zeta. fold ls i next.
  split; [assumption|]. split; [now rewrite <- Hline|].
  split; [subst app'; reflexivity|].
  split; [subst w' app'; cbn [fs set_fs expanduser]; apply lookup_insert_eq|].
  split.
  { rewrite universal_newlines_no_cr by assumption. now apply keepends_concat. }
  replace (App.query app') with (pre ++ PLACEHOLDER ++ suf)
    by (subst app'; symmetry; exact Hq).
  rewrite find_one_placeholder by assumption.
  rewrite (find_loop_first (map ALit pre ++ AGroup :: map ALit suf) 0
             (<[i := next]> ls) i next v []).
  - f_equal. f_equal. unfold i. lia.
  - apply list_lookup_insert_eq. eapply lookup_lt_Some. eassumption.
  - assumption.
  - intros j line' Hj Hl. rewrite list_lookup_insert_ne in Hl by lia.
    now apply (Hfirst j).
Qed.

(** X7. After a successful update, when the query has one placeholder and
    no whitespace after it, the value of the mode has no whitespace and the
    old value occurred once on its line: the file read again has the lines
    read before with the matched line alone changed, the new value standing
    where the old one stood, and [find_current_theme] finds the new value
    on the same line. *)
Theorem update_sets_theme
    (app app' : App.t) (w w' : World) (mode pre suf v bytes cur : str) (idx : Z) :
  App.query app = pre ++ PLACEHOLDER ++ suf ->
  occurrences PLACEHOLDER (App.query app) = 1%nat ->
  Forall nonspace suf ->
  App.get_mode app mode = Some v ->
  Forall nonspace v ->
  fs w !! expanduser w (App.file app) = Some (File bytes) ->
  find (App.query app) (keepends (universal_newlines bytes)) = Ok (idx, cur) ->
  App.update mode (app, w) = (Ok tt, (app', w')) ->
  App.status app' = colorize w (py "applied") [ITALIC; BLUE] ->
  occurrences cur (App.original app') = 1%nat ->
  exists a b,
    keepends (universal_newlines bytes) !! Z.to_nat idx
      = Some (a ++ pre ++ cur ++ suf ++ b) /\
    App.find_current_theme (app', w') =
      (Ok (idx, Some v),
       (App.set_lines
          (<[Z.to_nat idx := a ++ pre ++ v ++ suf ++ b]>
             (keepends (universal_newlines bytes))) app', w')).
Proof.
  intros Hq Hone Hsuf Hmode Hv Hfs Hfind Hupd Hstatus Hocc.
  destruct (updated_file app app' w w' mode pre suf v bytes cur idx)
    as (a & b & H); try assumption.
  cbv zeta in H. destruct H as (Hrange & Hline & _ & Hfs' & Hread & Hfind').
  exists a, b. split; [assumption|].
  rewrite <- Hread.
  apply find_current_theme_found; [assumption| |].
  - now rewrite Hread.
  - lia.
Qed.

Lemma update_sets_theme_witness :
  let w := sample_world [(bashrc, File bashrc_light)] in
  let r := App.update (py "dark") (bat false, w) in
  exists a b,
    keepends (universal_newlines bashrc_light) !! Z.to_nat 1
      = Some (a ++ py "export BAT_THEME=" ++ py "gruvbox-light" ++ [] ++ b) /\
    App.find_current_theme (fst (snd r), snd (snd r)) =
      (Ok (1, Some (py "gruvbox-dark")),
       (App.set_lines
          (<[Z.to_nat 1 := a ++ py "export BAT_THEME=" ++ py "gruvbox-dark" ++ [] ++ b]>
             (keepends (universal_newlines bashrc_light))) (fst (snd r)),
        snd (snd r))).
Proof.
  cbv zeta.
  apply (update_sets_theme (bat false) _
           (sample_world [(bashrc, File bashrc_light)]) _ (py "dark")
           (py "export BAT_THEME=") [] (py "gruvbox-dark") bashrc_light
           (py "gruvbox-light") 1).
  - reflexivity.
  - reflexivity.
  - constructor.
  - reflexivity.
  - repeat constructor.
  - vm_compute. reflexivity.
  - vm_compute. reflexivity.
  - vm_compute. reflexivity.
  - vm_compute. reflexivity.
  - vm_compute. reflexivity.
Defined.

(** ** A mode without a value *)

(** X8. For a mode that is neither 'light' nor 'dark', or whose value is
    empty, [update] raises [ThemeModeError] as soon as the query is found in
    the file, and writes nothing. *)
Theorem update_without_value_raises
    (app : App.t) (w : World) (mode bytes cur : str) (idx : Z) :
  fs w !! expanduser w (App.file app) = Some (File bytes) ->
  find (App.query app) (keepends (universal_newlines bytes)) = Ok (idx, cur) ->
  idx <> -1 ->
  App.get_mode app mode = None \/ App.get_mode app mode = Some [] ->
  fst (App.update mode (app, w)) = Raise ThemeModeError /\
  snd (snd (App.update mode (app, w))) = w.
Proof.
  intros Hfs Hfind Hidx Hmode.
  pose proof (has_changes_found app w mode bytes idx cur Hfs Hfind Hidx) as Hhc.
  cbv zeta in Hhc.
  destruct (find_index _ _ _ _ Hfind) as [|Hrange]; [contradiction|].
  rewrite getitem_nat in Hhc by assumption.
  destruct (lookup_lt_is_Some_2 (keepends (universal_newlines bytes)) (Z.to_nat idx))
    as [line Hline]; [lia|].
  rewrite Hline in Hhc.
  unfold App.update.
  destruct Hmode as [Hm | Hm]; rewrite Hm in Hhc; cbn [length Nat.eqb] in Hhc;
    erewrite bind_raise by exact Hhc; now split.
Qed.

Lemma update_without_value_raises_witness :
  let w := sample_world [(bashrc, File bashrc_light)] in
  fst (App.update (py "sepia") (bat false, w)) = Raise ThemeModeError /\
  snd (snd (App.update (py "sepia") (bat false, w))) = w.
Proof.
  cbv zeta.
  apply (update_without_value_raises (bat false) _ (py "sepia") bashrc_light
           (py "gruvbox-light") 1).
  - vm_compute. reflexivity.
  - vm_compute. reflexivity.
  - lia.
  - left. reflexivity.
Defined.

(** ** [diff] *)

Lemma keeps_diff_chunks : keeps same_world_and_flag App.diff_chunks.
Proof. unfold App.diff_chunks, App.self_. repeat keeps_step. Qed.

(** X9. [diff] only reads: whatever the mode, the differ and the state of
    the application, the world after the call is the world before it. *)
Theorem diff_writes_nothing
    (ndiff : list str -> list str -> list str) (mode : str)
    (app : App.t) (w : World) :
  snd (snd (App.diff ndiff mode (app, w))) = w.
Proof.
  assert (H : keeps same_world_and_flag (App.diff ndiff mode));
    [|exact (proj1 (H (app, w)))].
  unfold App.diff, App.self_.
  repeat first [ apply keeps_has_changes | apply keeps_set_status
               | apply keeps_diff_chunks | keeps_step ].
Qed.

Lemma slice_window {A} (xs : list A) (a b : Z) :
  0 <= a <= b -> b <= Z.of_nat (length xs) ->
  slice xs a b = take (Z.to_nat b - Z.to_nat a) (drop (Z.to_nat a) xs).
Proof.
  intros Ha Hb. unfold slice, slice_index.
  destruct (Z.ltb_spec a 0); [lia|]. destruct (Z.ltb_spec b 0); [lia|].
  rewrite !Z.min_r by lia. f_equal. lia.
Qed.

(** X10. The window of [diff] around a matched line [i] of [N] lines is
    [lines[max(0, i-2) : min(N, i+2)]]: it starts at most two lines before
    the match, holds the matched line, ends at most one line after it, and
    so has at most four lines. *)
Theorem diff_window_shape (app : App.t) (w : World) (i : nat) :
  App._line_idx app = Z.of_nat i ->
  (i < length (App._lines app))%nat ->
  let lines := App._lines app in
  let window := take (Nat.min (length lines) (i + 2) - (i - 2)) (drop (i - 2) lines) in
  App.diff_chunks (app, w) =
    (Ok (concat window,
         str_replace (App.original app) (App._next_theme app) (concat window)),
     (app, w)) /\
  window !! (Nat.min i 2) = lines !! i /\
  length window = (Nat.min (length lines) (i + 2) - (i - 2))%nat /\
  (length window <= 4)%nat /\
  (forall line, In line window -> exists j, lines !! j = Some line /\
     (i - 2 <= j <= i + 1)%nat).
Proof.
  intros Hidx Hlen lines window. fold lines in Hlen.
  assert (Hslice : slice lines (Z.max 0 (App._line_idx app - 2))
                     (Z.min (Z.of_nat (length lines)) (App._line_idx app + 2))
                   = window).
  { rewrite Hidx, slice_window by lia. unfold window. f_equal; [lia|f_equal; lia]. }
  split; [|split; [|split; [|split]]].
  - unfold App.diff_chunks, App.self_, bind, gets, ret. cbn [fst snd id].
    fold lines. now rewrite Hslice.
  - unfold window. rewrite lookup_take_lt by lia. rewrite lookup_drop.
    f_equal. lia.
  - unfold window. rewrite length_take, length_drop. lia.
  - unfold window. rewrite length_take, length_drop. lia.
  - intros line Hin. apply list_elem_of_In, list_elem_of_lookup in Hin as [k Hk].
    unfold window in Hk. apply lookup_take_Some in Hk as [Hk Hlt].
    rewrite lookup_drop in Hk. exists (i - 2 + k)%nat. split; [assumption|lia].
Qed.

Lemma diff_window_shape_witness :
  let app := App.set_line_idx 2 (App.set_lines (keepends five_lines) (bat false)) in
  let w := sample_world [] in
  let lines := App._lines app in
  let window := take (Nat.min (length lines) (2 + 2) - (2 - 2)) (drop (2 - 2) lines) in
  App.diff_chunks (app, w) =
    (Ok (concat window,
         str_replace (App.original app) (App._next_theme app) (concat window)),
     (app, w)) /\
  window !! (Nat.min 2 2) = lines !! 2%nat /\
  length window = (Nat.min (length lines) (2 + 2) - (2 - 2))%nat /\
  (length window <= 4)%nat /\
  (forall line, In line window -> exists j, lines !! j = Some line /\
     (2 - 2 <= j <= 2 + 1)%nat).
Proof.
  apply (diff_window_shape
           (App.set_line_idx 2 (App.set_lines (keepends five_lines) (bat false)))
           (sample_world []) 2).
  - reflexivity.
  - vm_compute. lia.
Defined.

(** ** A dry run of a whole theme *)

Lemma update_dry_world (app : App.t) (w : World) (mode : str) :
  App.dry_run app = true -> snd (snd (App.update mode (app, w))) = w.
Proof.
  intros Hdry. unfold App.update, bind at 1.
  pose proof (keeps_has_changes mode (app, w)) as [Hw Hf].
  destruct (App.has_changes mode (app, w)) as [[changed|e] [app1 w1]];
    cbn [fst snd] in Hw, Hf; subst w1; [|reflexivity].
  rewrite Hdry in Hf.
  destruct changed; cbn [negb].
  - unfold bind at 1, App.self_, gets. cbn [fst snd].
    destruct (length (App._next_theme app1) =? 0)%nat.
    + apply (keeps_set_status (py "err not updated") [ITALIC; RED] (app1, w)).
    + unfold bind at 1. cbn [fst snd]. rewrite Hf.
      apply (keeps_set_status (py "dry run") [ITALIC; CYAN] (app1, w)).
  - apply (keeps_set_status (py "no changes") [ITALIC; YELLOW] (app1, w)).
Qed.

Lemma process_app_dry_world (app : App.t) (w : World) (mode : str) :
  App.dry_run app = true -> snd (snd (process_app mode (app, w))) = w.
Proof.
  intros Hdry. unfold process_app.
  destruct (length mode =? 0)%nat; [reflexivity|].
  unfold bind, App.self_, gets. cbn [fst snd].
  destruct (occurred (App.error app)); [|now apply update_dry_world].
  apply (keeps_set_status (py "has err") [ITALIC; RED] (app, w)).
Qed.

Lemma process_apps_dry_world (mode : str) (apps : list (str * App.t))
    (commander : Commander.t) (updates : Z) (w : World) :
  Forall (fun a => App.dry_run (snd a) = true) apps ->
  snd (process_apps mode apps commander updates w) = w.
Proof.
  intros Hdry. revert commander updates.
  induction Hdry as [|[key app] rest Happ _ IH]; intros commander updates;
    [reflexivity|].
  cbn [process_apps]. unfold bind at 1, call.
  pose proof (process_app_dry_world app w mode Happ) as Hw.
  destruct (process_app mode (app, w)) as [[[]|e] [app1 w1]];
    cbn [fst snd] in Hw |- *; subst w1; [|reflexivity].
  destruct (occurred (App.error app1)); unfold bind.
  - specialize (IH commander updates).
    destruct (process_apps mode rest commander updates w) as [[[[r c] u]|e] w2];
      exact IH.
  - specialize (IH (Commander.add commander app1) (updates + 1)).
    destruct (process_apps mode rest (Commander.add commander app1) (updates + 1) w)
      as [[[[r c] u]|e] w2]; exact IH.
Qed.

Lemma for_each_same_world {A} (xs : list A) (body : A -> M World unit) (w : World) :
  (forall x, In x xs -> snd (body x w) = w) ->
  snd (for_each xs body w) = w.
Proof.
  induction xs as [|x xs IH]; intros H; [reflexivity|].
  cbn [for_each]. unfold bind.
  pose proof (H x (or_introl eq_refl)) as Hx.
  destruct (body x w) as [[[]|e] w1]; cbn [snd] in Hx |- *; subst w1;
    [|reflexivity].
  apply IH. intros y Hy. apply H. now right.
Qed.

Lemma load_dry_world (c : ModeAction.t) (mode : str) (w : World) :
  ModeAction.dry_run c = true -> snd (ModeAction.load c mode w) = w.
Proof.
  intros H. unfold ModeAction.load.
  destruct (ModeAction.get_mode c mode); [|reflexivity]. now rewrite H.
Qed.

Lemma Cmd_run_dry_world (c : Cmd.t) (w : World) :
  sys_dry_run w = true -> snd (Cmd.run c w) = w.
Proof.
  intros H. unfold Cmd.run. destruct (length (Cmd.cmd c) =? 0)%nat; [reflexivity|].
  unfold bind, gets. now rewrite H.
Qed.

Lemma pid_same_world (name : str) (w : World) : snd (SysOps.pid name w) = w.
Proof.
  unfold SysOps.pid, SysOps.check_output_pidof, bind, gets.
  destruct (fst (pidof w name) =? 0); [|reflexivity].
  unfold ret. now destruct (ints (split (snd (pidof w name)))).
Qed.

Lemma restart_dry_world (s : str) (w : World) :
  sys_dry_run w = true -> snd (SysOps.restart s w) = w.
Proof.
  intros H. unfold SysOps.restart. unfold bind at 1.
  pose proof (pid_same_world s w) as Hp.
  destruct (SysOps.pid s w) as [[pids|e] w1]; cbn [snd] in Hp; subst w1;
    [|reflexivity].
  unfold bind, gets. now rewrite H.
Qed.

Lemma randx_same_world (wp : Wallpaper.t) (w : World) :
  snd (Wallpaper.randx wp w) = w.
Proof.
  unfold Wallpaper.randx, bind, gets.
  destruct (fs w !! Wallpaper.random wp) as [[?|names]|]; try reflexivity.
  now destruct (Wallpaper.glob_star_dot_star _ _).
Qed.

Lemma wallpaper_set_dry_world (wp : Wallpaper.t) (mode : str) (w : World) :
  Wallpaper.dry_run wp = true -> snd (Wallpaper.set wp mode w) = w.
Proof.
  intros H. unfold Wallpaper.set. unfold bind at 1.
  pose proof (randx_same_world wp w) as Hr.
  destruct (Wallpaper.randx wp w) as [[p|e] w1]; cbn [snd] in Hr; subst w1;
    [|reflexivity].
  unfold Wallpaper.apply. destruct (occurred (Wallpaper.error wp)); [reflexivity|].
  unfold bind, gets.
  destruct (fs w !! Wallpaper.get wp mode p) as [[?|?]|]; try reflexivity.
  now rewrite H.
Qed.

(** X11. A dry run of a whole theme changes nothing: with [SysOps.dry_run]
    set and the dry-run flag of every application, every mode command and
    the wallpaper set, [process_theme] writes no file, spawns no command and
    sends no signal, however it ends. *)
Theorem process_theme_dry_run (theme : Theme.t) (mode : str) (w : World) :
  sys_dry_run w = true ->
  Forall (fun a => App.dry_run (snd a) = true) (Theme.apps theme) ->
  Forall (fun c => ModeAction.dry_run c = true) (Theme.cmds theme) ->
  (forall wp, Theme.wallpaper theme = Some wp -> Wallpaper.dry_run wp = true) ->
  snd (process_theme theme mode w) = w.
Proof.
  intros Hsys Happs Hcmds Hwall. unfold process_theme. unfold bind at 1.
  pose proof (process_apps_dry_world mode (Theme.apps theme) Commander.empty
                (Theme.updates theme) w Happs) as H1.
  destruct (process_apps mode (Theme.apps theme) Commander.empty
              (Theme.updates theme) w) as [[[[apps' commander] updates']|e] w1];
    cbn [snd] in H1 |- *; subst w1; [|reflexivity].
  unfold bind.
  assert (H2 : snd (handle_theme_updates
                      (Theme.set_updates updates' (Theme.set_apps apps' theme))
                      commander mode w) = w).
  { unfold handle_theme_updates. unfold bind at 1.
    cbn [Theme.wallpaper Theme.cmds Theme.set_updates Theme.set_apps].
    assert (Hw : snd (match Theme.wallpaper theme with
                      | Some wp => Wallpaper.set wp mode
                      | None => ret tt
                      end w) = w).
    { destruct (Theme.wallpaper theme) as [wp|] eqn:E; [|reflexivity].
      apply wallpaper_set_dry_world. now apply Hwall. }
    destruct (match Theme.wallpaper theme with
              | Some wp => Wallpaper.set wp mode
              | None => ret tt
              end w) as [[[]|e] w1]; cbn [snd] in Hw |- *; subst w1;
      [|reflexivity].
    destruct (negb _); [reflexivity|]. unfold bind at 1.
    assert (Hc : snd (for_each (Theme.cmds theme)
                        (fun c => ModeAction.load c mode) w) = w).
    { apply for_each_same_world. intros c Hin. apply load_dry_world.
      rewrite Forall_forall in Hcmds. apply Hcmds. now apply list_elem_of_In. }
    destruct (for_each (Theme.cmds theme) (fun c => ModeAction.load c mode) w)
      as [[[]|e] w1]; cbn [snd] in Hc |- *; subst w1; [|reflexivity].
    unfold bind at 1.
    assert (Hrun : snd ((if Commander.has_cmds commander
                         then Commander.run commander else ret tt) w) = w).
    { destruct (Commander.has_cmds commander); [|reflexivity].
      apply for_each_same_world. intros c _. now apply Cmd_run_dry_world. }
    destruct ((if Commander.has_cmds commander
               then Commander.run commander else ret tt) w) as [[[]|e] w2];
      cbn [snd] in Hrun |- *; subst w2; [|reflexivity].
    unfold bind, gets. apply for_each_same_world.
    intros s _. now apply restart_dry_world. }
  destruct (handle_theme_updates _ commander mode w) as [[[]|e] w2];
    cbn [snd] in H2 |- *; exact H2.
Qed.

Lemma process_theme_dry_run_witness :
  snd (process_theme gruvbox_dry (py "dark") (dry_desktop [(bashrc, File bashrc_light)]))
  = dry_desktop [(bashrc, File bashrc_light)].
Proof.
  apply process_theme_dry_run.
  - reflexivity.
  - repeat constructor.
  - repeat constructor.
  - intros wp H. discriminate H.
Defined.

(** ** Which files a theme writes *)

Lemma same_world_and_file_refl s : same_world_and_file s s.
Proof. now split. Qed.

Lemma same_world_and_file_trans s1 s2 s3 :
  same_world_and_file s1 s2 -> same_world_and_file s2 s3 ->
  same_world_and_file s1 s3.
Proof. intros [H1 H2] [H3 H4]. split; congruence. Qed.

Lemma keeps_file_world_ {A} (c : M World A) :
  (forall w, snd (c w) = w) -> keeps same_world_and_file (App.world_ c).
Proof.
  intros H [a w]. unfold App.world_, zoom. cbn [fst snd].
  specialize (H w). destruct (c w) as [r w']. cbn [fst snd] in *. now split.
Qed.

Lemma keeps_file_assign (f : App.t -> App.t) :
  (forall a, App.file (f a) = App.file a) ->
  keeps same_world_and_file (App.assign f).
Proof. intros H [a w]. split; [reflexivity|apply H]. Qed.

Ltac keeps_file_step :=
  first
    [ apply (keeps_bind _ same_world_and_file_trans); [|intros]
    | apply (keeps_ret _ same_world_and_file_refl)
    | apply (keeps_raise _ same_world_and_file_refl)
    | apply (keeps_gets _ same_world_and_file_refl)
    | apply keeps_file_assign; intros; reflexivity
    | apply keeps_file_world_; intros; first [reflexivity | apply readlines_world]
    | match goal with
      | |- keeps _ (if ?b then _ else _) => destruct b
      | |- keeps _ (match ?x with _ => _ end) => destruct x
      end ].

Lemma keeps_file_has_changes mode :
  keeps same_world_and_file (App.has_changes mode).
Proof.
  unfold App.has_changes, App.find_current_theme, App.determine_next_theme,
    App.read_lines, App.path, App.fail_with, App.self_.
  repeat keeps_file_step.
Qed.

Lemma wrote_at_most_refl target w : wrote_at_most target w w.
Proof. now repeat split. Qed.

Lemma wrote_at_most_trans (t1 t2 : str -> Prop) w1 w2 w3 :
  (forall p, t1 p -> t2 p) ->
  wrote_at_most t1 w1 w2 -> wrote_at_most t2 w2 w3 -> wrote_at_most t2 w1 w3.
Proof.
  intros Hsub (A1 & A2 & A3) (B1 & B2 & B3).
  split; [congruence|]. split; [congruence|].
  intros p Hp. rewrite B3 by assumption. apply A3. intros H. apply Hp. auto.
Qed.

(** [update] writes at most the target file of the application. *)
Lemma update_wrote_at_most (app : App.t) (w : World) (mode : str) :
  wrote_at_most (fun p => p = expanduser w (App.file app)) w
    (snd (snd (App.update mode (app, w)))).
Proof.
  pose proof (keeps_file_has_changes mode (app, w)) as [Hw Hf].
  destruct (App.has_changes mode (app, w)) as [[changed|e] [app1 w1]] eqn:Hhc;
    cbn [fst snd] in Hw, Hf; subst w1.
  2:{ unfold App.update. erewrite bind_raise by exact Hhc.
      apply wrote_at_most_refl. }
  rewrite (update_after_has_changes _ _ _ _ _ Hhc).
  destruct (negb changed); [apply wrote_at_most_refl|].
  destruct (length (App._next_theme app1) =? 0)%nat; [apply wrote_at_most_refl|].
  destruct (App.dry_run app1); [apply wrote_at_most_refl|].
  destruct (setitem _ _ _) as [ls'|]; [|apply wrote_at_most_refl].
  cbv zeta. rewrite Hf.
  destruct (fs w !! expanduser w (App.file app)) as [[bytes|names]|];
    cbn [snd]; try apply wrote_at_most_refl.
  - split; [reflexivity|]. split; [reflexivity|].
    intros p Hp. cbn [fs set_fs]. apply lookup_insert_ne. congruence.
  - split; [reflexivity|]. split; [reflexivity|].
    intros p Hp. cbn [fs set_fs]. apply lookup_insert_ne. congruence.
Qed.

Lemma process_app_wrote_at_most (app : App.t) (w : World) (mode : str) :
  wrote_at_most
    (fun p => occurred (App.error app) = false /\ p = expanduser w (App.file app))
    w (snd (snd (process_app mode (app, w)))).
Proof.
  unfold process_app. destruct (length mode =? 0)%nat; [apply wrote_at_most_refl|].
  unfold bind, App.self_, gets. cbn [fst snd].
  destruct (occurred (App.error app)) eqn:E.
  - pose proof (keeps_set_status (py "has err") [ITALIC; RED] (app, w)) as [-> _].
    apply wrote_at_most_refl.
  - destruct (update_wrote_at_most app w mode) as (H1 & H2 & H3).
    split; [assumption|]. split; [assumption|].
    intros p Hp. apply H3. intros ->. now apply Hp.
Qed.

(** The loop over the applications writes at most the target files of the
    applications that had no error when the loop started, and spawns
    nothing. *)
Lemma process_apps_wrote_at_most (mode : str) (apps : list (str * App.t))
    (commander : Commander.t) (updates : Z) (w : World) :
  wrote_at_most
    (fun p => exists a, In a apps /\ occurred (App.error (snd a)) = false /\
                        p = expanduser w (App.file (snd a)))
    w (snd (process_apps mode apps commander updates w)).
Proof.
  revert commander updates w.
  induction apps as [|[key app] rest IH]; intros commander updates w;
    [apply wrote_at_most_refl|].
  cbn [process_apps]. unfold bind at 1, call.
  pose proof (process_app_wrote_at_most app w mode) as H1.
  destruct (process_app mode (app, w)) as [[[]|e] [app1 w1]]; cbn [fst snd] in H1 |- *.
  2:{ destruct H1 as (A1 & A2 & A3). split; [assumption|]. split; [assumption|].
      intros p Hp. apply A3. intros [Herr ->]. apply Hp.
      exists (key, app). split; [now left|]. now split. }
  assert (Hrest : forall c u,
            wrote_at_most
              (fun p => exists a, In a ((key, app) :: rest) /\
                          occurred (App.error (snd a)) = false /\
                          p = expanduser w (App.file (snd a)))
              w (snd (process_apps mode rest c u w1))).
  { intros c u. eapply wrote_at_most_trans; [|exact H1|].
    - intros p [Herr ->]. exists (key, app). split; [now left|]. now split.
    - destruct (IH c u w1) as (B1 & B2 & B3).
      split; [assumption|]. split; [assumption|].
      intros p Hp. apply B3. intros (a & Hin & Herr & ->). apply Hp.
      exists a. split; [now right|]. split; [assumption|].
      destruct H1 as (-> & _). reflexivity. }
  destruct (occurred (App.error app1)); unfold bind.
  - specialize (Hrest commander updates).
    destruct (process_apps mode rest commander updates w1) as [[[[r c] u]|e] w2];
      exact Hrest.
  - specialize (Hrest (Commander.add commander app1) (updates + 1)).
    destruct (process_apps mode rest (Commander.add commander app1) (updates + 1) w1)
      as [[[[r c] u]|e] w2]; exact Hrest.
Qed.

Lemma same_files_refl w : same_files w w.
Proof. now split. Qed.

Lemma same_files_trans w1 w2 w3 : same_files w1 w2 -> same_files w2 w3 -> same_files w1 w3.
Proof. intros [A1 A2] [B1 B2]. split; congruence. Qed.

Ltac files_step :=
  first
    [ apply (keeps_bind _ same_files_trans); [|intros]
    | apply (keeps_ret _ same_files_refl)
    | apply (keeps_raise _ same_files_refl)
    | apply (keeps_gets _ same_files_refl)
    | apply keeps_modify; intros; split; reflexivity
    | apply keeps_for_each; [apply same_files_refl|apply same_files_trans|intros]
    | match goal with
      | |- keeps _ (if ?b then _ else _) => destruct b
      | |- keeps _ (match ?x with _ => _ end) => destruct x
      end ].

(** After the loop over the applications, [handle_theme_updates] writes no
    file. *)
Lemma keeps_files_handle_theme_updates theme commander mode :
  keeps same_files (handle_theme_updates theme commander mode).
Proof.
  unfold handle_theme_updates, Wallpaper.set, Wallpaper.randx, Wallpaper.apply,
    ModeAction.load, Commander.run, Cmd.run, SysOps.restart, SysOps.pid,
    SysOps.check_output_pidof, SysOps.send_signal, SysOps.kill, SysOps_run.
  repeat files_step.
Qed.

(** X12. [process_theme] writes no file but the target files of the
    applications that had no error when it started: every other path holds
    after the call what it held before, however the call ends. *)
Theorem process_theme_writes_targets_only
    (theme : Theme.t) (mode : str) (w : World) (p : str) :
  (forall a, In a (Theme.apps theme) -> occurred (App.error (snd a)) = false ->
     expanduser w (App.file (snd a)) <> p) ->
  fs (snd (process_theme theme mode w)) !! p = fs w !! p.
Proof.
  intros Hp. unfold process_theme. unfold bind at 1.
  pose proof (process_apps_wrote_at_most mode (Theme.apps theme) Commander.empty
                (Theme.updates theme) w) as (_ & _ & H1).
  specialize (H1 p).
  destruct (process_apps mode (Theme.apps theme) Commander.empty
              (Theme.updates theme) w) as [[[[apps' commander] updates']|e] w1];
    cbn [snd] in H1 |- *.
  2:{ apply H1. intros (a & Hin & Herr & ->). now apply (Hp a). }
  unfold bind.
  pose proof (keeps_files_handle_theme_updates
                (Theme.set_updates updates' (Theme.set_apps apps' theme))
                commander mode w1) as [H2 _].
  destruct (handle_theme_updates _ commander mode w1) as [[[]|e] w2];
    cbn [snd ret] in H2 |- *; rewrite H2; apply H1;
    intros (a & Hin & Herr & ->); now apply (Hp a).
Qed.

Lemma process_theme_writes_targets_only_witness :
  fs (snd (process_theme gruvbox (py "dark")
             (desktop [(bashrc, File bashrc_light); (gtk_settings, File (py "x"))])))
    !! gtk_settings
  = fs (desktop [(bashrc, File bashrc_light); (gtk_settings, File (py "x"))])
    !! gtk_settings.
Proof.
  apply process_theme_writes_targets_only.
  intros a [<- | []] _. discriminate.
Defined.

(** ** No application updated *)

Lemma wallpaper_set_events (wp : Wallpaper.t) (mode : str) (w w' : World) :
  Wallpaper.set wp mode w = (Ok tt, w') ->
  trace w' = trace w \/
  exists p, trace w' = trace w ++ [EvRun (Wallpaper.cmd wp ++ py " " ++ p)].
Proof.
  unfold Wallpaper.set. unfold bind at 1. intros H.
  pose proof (randx_same_world wp w) as Hr.
  destruct (Wallpaper.randx wp w) as [[p|e] w1]; cbn [snd] in Hr; subst w1;
    [|discriminate].
  unfold Wallpaper.apply in H.
  destruct (occurred (Wallpaper.error wp)); [injection H as <-; now left|].
  unfold bind, gets in H.
  destruct (fs w !! Wallpaper.get wp mode p) as [[?|?]|]; try discriminate.
  destruct (Wallpaper.dry_run wp); injection H as <-; [now left|right].
  now exists (Wallpaper.get wp mode p).
Qed.

(** X13. When a run that started with the counter at 0 ends with no
    application without error, [process_theme] runs no mode command, no
    command of an application and restarts nothing: the only command it
    may have spawned is the one that sets the wallpaper. *)
Theorem process_theme_without_updates
    (theme theme' : Theme.t) (mode : str) (w w' : World) :
  process_theme theme mode w = (Ok theme', w') ->
  Theme.updates theme = 0 ->
  filter without_error (Theme.apps theme') = [] ->
  Theme.updates theme' = 0 /\
  (trace w' = trace w \/
   exists wp p, Theme.wallpaper theme = Some wp /\
     trace w' = trace w ++ [EvRun (Wallpaper.cmd wp ++ py " " ++ p)]).
Proof.
  unfold process_theme. unfold bind at 1. intros H Hzero Hnone.
  pose proof (process_apps_wrote_at_most mode (Theme.apps theme) Commander.empty
                (Theme.updates theme) w) as (_ & Htrace & _).
  destruct (process_apps mode (Theme.apps theme) Commander.empty
              (Theme.updates theme) w)
    as [[[[apps' commander] updates']|e] w1] eqn:Eapps; [|discriminate].
  cbn [snd] in Htrace.
  destruct (process_apps_spec _ _ _ _ _ _ _ _ _ Eapps) as (_ & Hu & _ & _).
  unfold bind in H.
  destruct (handle_theme_updates _ commander mode w1) as [[[]|e] w2] eqn:Eh;
    [|discriminate].
  injection H as <- <-.
  cbn [Theme.updates Theme.apps Theme.set_updates Theme.set_apps] in Hnone |- *.
  rewrite Hnone, Hzero in Hu. cbn in Hu. subst updates'.
  split; [reflexivity|].
  unfold handle_theme_updates in Eh. unfold bind in Eh.
  cbn [Theme.wallpaper Theme.set_updates Theme.set_apps Theme.has_updates
         Theme.updates] in Eh.
  destruct (Theme.wallpaper theme) as [wp|].
  - destruct (Wallpaper.set wp mode w1) as [[[]|e] w3] eqn:Ew; [|discriminate].
    cbn [Z.ltb Z.compare negb] in Eh. injection Eh as <-.
    destruct (wallpaper_set_events wp mode w1 w3 Ew) as [Ht | [p Ht]].
    + left. congruence.
    + right. exists wp, p. split; [reflexivity|]. congruence.
  - cbn [ret Z.ltb Z.compare negb] in Eh. injection Eh as <-. now left.
Qed.

Lemma process_theme_without_updates_witness :
  Theme.updates gruvbox_broken_after = 0 /\
  (trace (snd gruvbox_broken_run) = trace (desktop [(bashrc, File bashrc_light)]) \/
   exists wp p, Theme.wallpaper gruvbox_broken = Some wp /\
     trace (snd gruvbox_broken_run) =
       trace (desktop [(bashrc, File bashrc_light)])
       ++ [EvRun (Wallpaper.cmd wp ++ py " " ++ p)]).
Proof.
  apply (process_theme_without_updates gruvbox_broken gruvbox_broken_after (py "dark")
           (desktop [(bashrc, File bashrc_light)]) (snd gruvbox_broken_run)).
  - vm_compute. reflexivity.
  - reflexivity.
  - vm_compute. reflexivity.
Defined.

(** ** Signals *)

Lemma emit_trace e w : trace (emit e w) = trace w ++ [e].
Proof. reflexivity. Qed.

Lemma kill_eq (p signal : Z) (w : World) :
  SysOps.kill p signal w =
    if kill_fails w p then (Raise OSError, w)
    else (Ok tt, emit (EvKill p signal) w).
Proof. unfold SysOps.kill, bind, gets. now destruct (kill_fails w p). Qed.

Lemma for_each_kill (pids : list Z) (signal : Z) (w : World) :
  let r := for_each pids (fun p => SysOps.kill p signal) w in
  trace (snd r) =
    trace w ++ map (fun p => EvKill p signal) (delivered (kill_fails w) pids) /\
  fs (snd r) = fs w /\
  fst r = if bool_decide (delivered (kill_fails w) pids = pids)
          then Ok tt else Raise OSError.
Proof.
  cbv zeta. revert w. induction pids as [|p pids IH]; intros w.
  - cbn. rewrite app_nil_r. now repeat split.
  - cbn [for_each delivered]. unfold bind. rewrite kill_eq.
    destruct (kill_fails w p) eqn:E; cbn [fst snd map].
    + rewrite app_nil_r. repeat split.
    + destruct (IH (emit (EvKill p signal) w)) as (H1 & H2 & H3).
      change (kill_fails (emit (EvKill p signal) w)) with (kill_fails w) in *.
      destruct (for_each pids (fun p0 => SysOps.kill p0 signal) (emit (EvKill p signal) w))
        as [[[]|e] w1]; cbn [fst snd] in *.
      * rewrite H1, emit_trace, <- app_assoc. split; [reflexivity|].
        split; [assumption|].
        destruct (bool_decide (delivered (kill_fails w) pids = pids)) eqn:B;
          [|discriminate].
        apply bool_decide_eq_true in B. rewrite B.
        now rewrite bool_decide_eq_true_2.
      * rewrite H1, emit_trace, <- app_assoc. split; [reflexivity|].
        split; [assumption|].
        destruct (bool_decide (delivered (kill_fails w) pids = pids)) eqn:B;
          [discriminate|].
        apply bool_decide_eq_false in B.
        rewrite bool_decide_eq_false_2; [assumption|]. congruence.
Qed.

(** X14. [send_signal] sends the signal to the pids in order and stops at
    the first one for which [os.kill] fails: the pids before it have got
    the signal, the later ones have not, and the call raises [OSError];
    when no delivery fails every pid has got the signal and the call
    returns. No file is touched. *)
Theorem send_signal_until_failure (pids : list Z) (signal : Z) (w : World) :
  let r := SysOps.send_signal pids signal w in
  trace (snd r) =
    trace w ++ map (fun p => EvKill p signal) (delivered (kill_fails w) pids) /\
  fs (snd r) = fs w /\
  fst r = if bool_decide (delivered (kill_fails w) pids = pids)
          then Ok tt else Raise OSError.
Proof.
  cbv zeta. unfold SysOps.send_signal.
  destruct pids as [|p pids]; [cbn; rewrite app_nil_r; now repeat split|].
  cbn [length Nat.eqb]. apply (for_each_kill (p :: pids) signal w).
Qed.

(** ** What [validate] accepts *)

Lemma fail_with_eq (m : str) (app : App.t) (w : World) :
  App.fail_with m (app, w) = (Ok tt, (App.set_error (mkBaseError m true) app, w)).
Proof. reflexivity. Qed.

Lemma after_mode_checks_clean (app : App.t) :
  occurred (App.error app) = false ->
  (occurred (after_mode_checks app) = false <->
   App.dark app <> [] /\ App.light app <> []).
Proof.
  intros Hc. unfold after_mode_checks.
  destruct (length (App.light app) =? 0)%nat eqn:El.
  - apply length_eqb_0_nil in El. cbn. split; [discriminate|]. now intros [_ ?].
  - apply length_eqb_0_cons in El.
    destruct (length (App.dark app) =? 0)%nat eqn:Ed.
    + apply length_eqb_0_nil in Ed. cbn. split; [discriminate|]. now intros [? _].
    + apply length_eqb_0_cons in Ed. now rewrite Hc.
Qed.

(** X15. [validate] accepts exactly the well-configured applications: on
    an application without error it returns with the error flag still
    unset if and only if file, dark, light and query are given, the query
    holds the placeholder, the target is a regular file and [find] locates
    the query in one of its lines. *)
Theorem validate_accepts_iff (app : App.t) (w : World) :
  occurred (App.error app) = false ->
  ((exists app', App.validate (app, w) = (Ok tt, (app', w)) /\
                 occurred (App.error app') = false)
   <-> well_configured app w).
Proof.
  intros Hclean. rewrite validate_steps. unfold well_configured.
  destruct (length (App.file app) =? 0)%nat eqn:Ef.
  { apply length_eqb_0_nil in Ef. rewrite fail_with_eq. split.
    - intros (app' & E & Hok). injection E as <-. discriminate.
    - now intros [? _]. }
  apply length_eqb_0_cons in Ef. cbv zeta.
  destruct (length (App.query app) =? 0)%nat eqn:Eq.
  { apply length_eqb_0_nil in Eq. rewrite fail_with_eq. split.
    - intros (app' & E & Hok). injection E as <-. discriminate.
    - now intros (_ & _ & _ & ? & _). }
  apply length_eqb_0_cons in Eq.
  destruct (contains PLACEHOLDER (App.query app)) eqn:Ec; cbn [negb].
  2:{ rewrite fail_with_eq. split.
      - intros (app' & E & Hok). injection E as <-. discriminate.
      - now intros (_ & _ & _ & _ & ? & _). }
  destruct (fs w !! expanduser w (App.file app)) as [nd|] eqn:Efs.
  2:{ rewrite fail_with_eq. split.
      - intros (app' & E & Hok). injection E as <-. discriminate.
      - intros (_ & _ & _ & _ & _ & bytes & idx & cur & ? & _). discriminate. }
  unfold bind. rewrite find_current_theme_steps. cbv zeta.
  cbn [App.file App.set_error App.query App.name]. rewrite Efs.
  destruct nd as [bytes|names].
  2:{ split.
      - intros (app' & E & _). discriminate.
      - intros (_ & _ & _ & _ & _ & bytes & idx & cur & ? & _). discriminate. }
  destruct (length (keepends (universal_newlines bytes)) =? 0)%nat eqn:El.
  { apply length_eqb_0_nil in El. split.
    - intros (app' & E & Hok). injection E as <-. discriminate.
    - intros (_ & _ & _ & _ & _ & bytes' & idx & cur & E & Hfind & Hidx).
      injection E as <-. rewrite El in Hfind. cbn in Hfind.
      injection Hfind as <- _. contradiction. }
  destruct (find (App.query app) (keepends (universal_newlines bytes)))
    as [[idx cur]|e] eqn:Efind.
  2:{ split.
      - intros (app' & E & _). discriminate.
      - intros (_ & _ & _ & _ & _ & bytes' & idx & cur & E & Hfind & _).
        injection E as <-. congruence. }
  destruct (Z.eqb_spec idx (-1)) as [-> | Hidx].
  { split.
    - intros (app' & E & Hok). injection E as <-. discriminate.
    - intros (_ & _ & _ & _ & _ & bytes' & idx & cur' & E & Hfind & Hidx).
      injection E as <-. rewrite Efind in Hfind. injection Hfind as <- _.
      contradiction. }
  cbn [ret]. split.
  - intros (app' & E & Hok). injection E as <-.
    cbn [App.error App.set_lines App.set_error] in Hok.
    apply (after_mode_checks_clean app Hclean) in Hok as [Hd Hl].
    repeat apply conj; try assumption; try reflexivity.
    exists bytes, idx, cur. now repeat apply conj.
  - intros (_ & Hd & Hl & _).
    eexists. split; [reflexivity|].
    cbn [App.error App.set_lines App.set_error].
    now apply (after_mode_checks_clean app Hclean).
Qed.

Lemma validate_accepts_iff_witness :
  (exists app', App.validate (bat false, desktop [(bashrc, File bashrc_light)])
                = (Ok tt, (app', desktop [(bashrc, File bashrc_light)])) /\
                occurred (App.error app') = false)
  <-> well_configured (bat false) (desktop [(bashrc, File bashrc_light)]).
Proof.
  apply (validate_accepts_iff (bat false) (desktop [(bashrc, File bashrc_light)])).
  reflexivity.
Defined.

(** X16. [validate] touches nothing outside the object, and the one way
    it raises is [IsADirectoryError], when the target path is a
    directory: every other defect is recorded in the error of the
    application. *)
Theorem validate_raises_only_on_directory (app : App.t) (w : World) :
  snd (snd (App.validate (app, w))) = w /\
  forall e, fst (App.validate (app, w)) = Raise e ->
    e = IsADirectoryError /\
    exists names, fs w !! expanduser w (App.file app) = Some (Dir names).
Proof.
  rewrite validate_steps.
  destruct (length (App.file app) =? 0)%nat; [split; [reflexivity|discriminate]|].
  cbv zeta.
  destruct (length (App.query app) =? 0)%nat; [split; [reflexivity|discriminate]|].
  destruct (negb (contains PLACEHOLDER (App.query app)));
    [split; [reflexivity|discriminate]|].
  destruct (fs w !! expanduser w (App.file app)) as [nd|] eqn:Efs;
    [|split; [reflexivity|discriminate]].
  unfold bind. rewrite find_current_theme_steps. cbv zeta.
  cbn [App.file App.set_error App.query App.name]. rewrite Efs.
  destruct nd as [bytes|names].
  2:{ split; [reflexivity|]. intros e E. injection E as <-.
      split; [reflexivity|]. now exists names. }
  destruct (length (keepends (universal_newlines bytes)) =? 0)%nat;
    [split; [reflexivity|discriminate]|].
  destruct (find_returns (App.query app) (keepends (universal_newlines bytes)))
    as (idx & cur & ->).
  destruct (idx =? -1); split; try reflexivity; discriminate.
Qed.
